(** * langforge, package system (src/system/utils.go)

    A shallow embedding of the environment-sourcing functions
    ([ShellSourceUnix], [ShellSourceBatch], [ShellSourcePowerShell]) and of
    the command runner ([ExecuteCommands]), with the pieces of the Go
    standard library they call: [strings.Split], [strings.SplitN],
    [bufio.Scanner] with its default line splitter, [os.Setenv] and
    [exec.Cmd].

    Go strings are byte sequences: they are [string]s here, one [ascii] per
    byte.  The process environment and the parsed snapshot
    ([map[string]string]) are [gmap string string].  The host operating
    system is a parameter: a type of worlds and a function that runs a
    child process in a world.  [os.Setenv] is the POSIX one for the process
    that runs [sh] and the Windows one, with its way of comparing names and
    of storing values as parameters, for the process that runs [cmd.exe]
    or [powershell.exe]. *)

From Stdlib Require Import ZArith NArith Ascii String List Lia DecimalString.
From stdpp Require Import base option list strings gmap fin_maps.

Local Open Scope string_scope.

(** ** Package strings *)

(** Every call in utils.go passes a separator of one byte (a newline, a
    space or an equals sign), so the separator is a byte here and the
    branch of [genSplit] for the empty separator is left out. *)

(** [strings.Count(s, sep)] for a one-byte [sep]. *)
Fixpoint strings_Count (s : string) (sep : ascii) : nat :=
  match s with
  | EmptyString => 0
  | String c s' =>
      if Ascii.eqb c sep then S (strings_Count s' sep) else strings_Count s' sep
  end.

(** [m := Index(s, sep)] followed by the two slices [s[:m]] and
    [s[m+len(sep):]] that [genSplit] takes; [None] stands for [m < 0]. *)
Fixpoint strings_Cut (s : string) (sep : ascii) : option (string * string) :=
  match s with
  | EmptyString => None
  | String c s' =>
      if Ascii.eqb c sep then Some (EmptyString, s')
      else match strings_Cut s' sep with
           | Some (before, after) => Some (String c before, after)
           | None => None
           end
  end.

(** The loop of [genSplit]: at most [cuts] cuts ([n-1] in the source), then
    the unsplit remainder. *)
Fixpoint genSplit_loop (cuts : nat) (s : string) (sep : ascii) : list string :=
  match cuts with
  | O => [s]
  | S k =>
      match strings_Cut s sep with
      | None => [s]
      | Some (before, after) => before :: genSplit_loop k after sep
      end
  end.

(** [genSplit(s, sep, 0, n)]. *)
Definition genSplit (s : string) (sep : ascii) (n : Z) : list string :=
  if (n =? 0)%Z then []
  else
    let n := if (n <? 0)%Z then (Z.of_nat (strings_Count s sep) + 1)%Z else n in
    let n := if (Z.of_nat (String.length s) + 1 <? n)%Z
             then (Z.of_nat (String.length s) + 1)%Z else n in
    genSplit_loop (Z.to_nat (n - 1)) s sep.

(** [strings.Split(s, sep)] is [genSplit(s, sep, 0, -1)]. *)
Definition strings_Split (s : string) (sep : ascii) : list string :=
  genSplit s sep (-1).

(** [strings.SplitN(s, sep, n)] is [genSplit(s, sep, 0, n)]. *)
Definition strings_SplitN (s : string) (sep : ascii) (n : Z) : list string :=
  genSplit s sep n.

(** [strings.Join(elems, sep)] for a one-byte [sep]; utils.go does not call
    it, the statements below use it to build and to rebuild texts. *)
Fixpoint strings_Join (elems : list string) (sep : ascii) : string :=
  match elems with
  | [] => EmptyString
  | [e] => e
  | e :: rest => e +:+ String sep (strings_Join rest sep)
  end.

(** [strings.Repeat(s, count)], with the count in binary so that long texts
    can be written down. *)
Definition strings_Repeat (s : string) (count : N) : string :=
  N.iter count (fun r => s +:+ r) EmptyString.

(** [strings.ContainsRune(s, c)] for a one-byte [c]. *)
Fixpoint contains_byte (s : string) (c : ascii) : bool :=
  match s with
  | EmptyString => false
  | String c' s' => Ascii.eqb c' c || contains_byte s' c
  end.

Definition newline : ascii := "010"%char.
Definition carriage_return : ascii := "013"%char.
Definition equals_sign : ascii := "="%char.
Definition space : ascii := " "%char.
Definition tab : ascii := "009"%char.
Definition nul : ascii := "000"%char.

(** ** Package bufio: [Scanner] with the default split function [ScanLines] *)

(** [bufio.MaxScanTokenSize = 64 * 1024]: the largest buffer a Scanner made
    by [NewScanner] allocates. *)
Definition MaxScanTokenSize : N := 65536.

(** The errors [Scanner.Err] can report when the reader is a
    [bytes.Buffer], whose [Read] fails only with [io.EOF]. *)
Inductive scan_error := ErrTooLong.

(** The bytes held for the current line, as a string. *)
Definition held_text (held : list ascii) : string :=
  string_of_list_ascii (rev held).

(** The token [ScanLines] returns for the held bytes of a line: [dropCR]
    removes one trailing carriage return.  [held] is kept in reverse. *)
Definition line_token (held : list ascii) : string :=
  string_of_list_ascii
    (rev match held with
         | c :: before => if Ascii.eqb c carriage_return then before else held
         | [] => held
         end).

(** The loop [for scanner.Scan() { ... scanner.Text() ... }] run to its
    end, followed by [scanner.Err()].  [held] are the [n] bytes of the
    current line read so far.  A newline ends the line and gives a token.
    When the buffer holds [maxTokenSize] bytes and no newline, [Scan] sets
    [ErrTooLong] and returns false for good.  At the end of the data a
    final line without newline is a token when it is not empty. *)
Fixpoint scan_lines (maxTokenSize : N) (data : string)
    (held : list ascii) (n : N) : list string * option scan_error :=
  match data with
  | EmptyString =>
      (match held with [] => [] | _ => [line_token held] end, None)
  | String c rest =>
      if Ascii.eqb c newline then
        let '(tokens, err) := scan_lines maxTokenSize rest [] 0%N in
        (line_token held :: tokens, err)
      else if (maxTokenSize <=? n + 1)%N then ([], Some ErrTooLong)
      else scan_lines maxTokenSize rest (c :: held) (n + 1)%N
  end.

(** [dropCR] on a whole line: one trailing carriage return is removed. *)
Fixpoint dropCR (line : string) : string :=
  match line with
  | EmptyString => EmptyString
  | String c EmptyString =>
      if Ascii.eqb c carriage_return then EmptyString else line
  | String c rest => String c (dropCR rest)
  end.

(** The lines of a text as [ScanLines] cuts it: the pieces between
    newlines, without the empty piece after a final newline. *)
Definition text_lines (text : string) : list string :=
  let lines := strings_Split text newline in
  match last lines with
  | Some EmptyString => removelast lines
  | _ => lines
  end.

Definition bufio_scan (out : string) : list string * option scan_error :=
  scan_lines MaxScanTokenSize out [] 0%N.

(** ** The environment-diff parsing step *)

(** Go's [error] values are their messages. *)
Definition error := string.

(** The body of the three parsing loops, which is the same text in the
    three functions:
      parts := strings.SplitN(line, "=", 2)
      if len(parts) == 2 { env[parts[0]] = parts[1] } *)
Definition parse_line (env : gmap string string) (line : string)
    : gmap string string :=
  match strings_SplitN line equals_sign 2 with
  | [key; value] => <[key := value]> env
  | _ => env
  end.

(** [env := make(map[string]string)] and the loop over the lines. *)
Definition parse_lines (lines : list string) : gmap string string :=
  fold_left parse_line lines ∅.

(** The entry a line stands for: the text before its first equals sign and
    the text after it; [None] for a line the loop skips. *)
Definition line_entry (line : string) : option (string * string) :=
  match strings_SplitN line equals_sign 2 with
  | [key; value] => Some (key, value)
  | _ => None
  end.

(** The snapshot of ShellSourceUnix: the lines are
    [strings.Split(string(output), "\n")]. *)
Definition parse_split (output : string) : gmap string string :=
  parse_lines (strings_Split output newline).

(** The snapshot of ShellSourceBatch and ShellSourcePowerShell: the lines
    are those the scanner yields; [scanner.Err()] is never read. *)
Definition parse_scan (out : string) : gmap string string :=
  parse_lines (fst (bufio_scan out)).

(** ** Package os: the process environment *)

(** [os.Setenv(key, value)] on a POSIX system, as syscall/env_unix.go
    implements it: EINVAL, and no change, for an empty name, a name with an
    equals sign or a NUL byte, and a value with a NUL byte; otherwise the
    variable is set.  Names are compared byte by byte and the bytes of the
    value are kept as they are.  This is the Setenv of the process that
    runs [sh] (ShellSourceUnix); the one of the process that runs [cmd.exe]
    or [powershell.exe] is [os_Setenv_windows] below. *)
Definition setenv_valid (key value : string) : bool :=
  negb (String.eqb key "")
  && negb (contains_byte key equals_sign)
  && negb (contains_byte key nul)
  && negb (contains_byte value nul).

Definition os_Setenv (key value : string) (environ : gmap string string)
    : gmap string string * option error :=
  if setenv_valid key value then (<[key := value]> environ, None)
  else (environ, Some "setenv: invalid argument").

(** [for key, value := range env { os.Setenv(key, value) }]: the error
    Setenv returns is dropped.  Go ranges over a map in an unspecified
    order; [setenv_range_order] below shows that the order is immaterial. *)
Definition setenv_range (env environ : gmap string string)
    : gmap string string :=
  map_fold (fun key value acc => fst (os_Setenv key value acc)) environ env.

(** The same loop over an explicit sequence of the map's entries. *)
Definition setenv_seq (entries : list (string * string))
    (environ : gmap string string) : gmap string string :=
  fold_left (fun acc kv => fst (os_Setenv kv.1 kv.2 acc)) entries environ.

(** What Windows does with the variables of a process.  A variable is
    kept under its name as Windows compares names, without regard to
    letter case: [win_name] gives the form under which a name is kept, so
    two names are the same variable exactly when it maps them to the same
    text.  [win_value] is the value as it reads back after Setenv has
    converted it to UTF-16.  [win_accepts] tells the calls that succeed
    from those that fail and change nothing (a NUL byte in name or value,
    a name the system refuses).  [range_order] is the order in which a
    [range] loop of the Go runtime visits a map: any order, of all the
    entries, each once. *)
Record Windows := mkWindows {
  win_name : string -> string;
  win_value : string -> string;
  win_accepts : string -> string -> bool;
  range_order : gmap string string -> list (string * string);
  range_order_perm : forall env, range_order env ≡ₚ map_to_list env
}.

(** [os.Setenv(key, value)] on Windows, as syscall/env_windows.go
    implements it.  The table of the process is indexed by the names as
    kept. *)
Definition os_Setenv_windows (win : Windows) (key value : string)
    (environ : gmap string string) : gmap string string * option error :=
  if win_accepts win key value
  then (<[win_name win key := win_value win value]> environ, None)
  else (environ, Some "setenv: invalid argument").

(** [for key, value := range env { os.Setenv(key, value) }] on Windows:
    the entries in the order of the runtime, the errors dropped. *)
Definition setenv_range_windows (win : Windows)
    (env environ : gmap string string) : gmap string string :=
  fold_left (fun acc kv => fst (os_Setenv_windows win kv.1 kv.2 acc))
            (range_order win env) environ.

(** ** Package os/exec *)

(** Where a child's standard stream goes. *)
Inductive Stream := Unset | Inherited | Captured.

(** The fields of [exec.Cmd] that utils.go sets. *)
Record Cmd := mkCmd {
  Path : string;
  Args : list string;
  Dir : string;
  Stdout : Stream;
  Stderr : Stream
}.

(** [exec.Command(name, arg...)]: [Args] holds the name, then the
    arguments. *)
Definition exec_Command (name : string) (arg : list string) : Cmd :=
  {| Path := name; Args := name :: arg; Dir := "";
     Stdout := Unset; Stderr := Unset |}.

Definition with_Dir (c : Cmd) (dir : string) : Cmd :=
  {| Path := Path c; Args := Args c; Dir := dir;
     Stdout := Stdout c; Stderr := Stderr c |}.

Definition with_Stdout (c : Cmd) (s : Stream) : Cmd :=
  {| Path := Path c; Args := Args c; Dir := Dir c;
     Stdout := s; Stderr := Stderr c |}.

Definition with_Stderr (c : Cmd) (s : Stream) : Cmd :=
  {| Path := Path c; Args := Args c; Dir := Dir c;
     Stdout := Stdout c; Stderr := s |}.

(** What [ExecuteCommands] does in the end: it returns an error value (nil
    is [None]) or panics. *)
Inductive outcome := Returned (err : option error) | Panicked.

(** ** The host and the functions of utils.go *)

Section Host.

(** The state of the machine outside the process (files, other
    processes, the terminal), and the run of a child process to its end:
    from the command, the environment the child inherits and the world,
    to the world afterwards, the bytes the child wrote to its standard
    output, and the error [Wait] reports (spawn failure, non-zero exit,
    I/O failure), if any. *)
Variable World : Type.
Variable spawn :
  Cmd -> gmap string string -> World -> World * string * option error.

(** The Windows the process runs on when it can run [cmd.exe] or
    [powershell.exe]. *)
Variable win : Windows.

(** The process: its environment table (indexed by the names as the
    system keeps them), the world around it, and the commands it has run
    so far, oldest first (a ghost field: it records every call of
    [Cmd.Run]). *)
Record Process := mkProcess {
  environ : gmap string string;
  world : World;
  history : list Cmd
}.

(** [cmd.Run()].  [Start] refuses a command whose [Path] is empty ("exec:
    no command") before any process is made; [exec.Command] leaves the
    path empty when the name is empty.  A child cannot change the
    environment of its parent. *)
Definition Cmd_Run (c : Cmd) (p : Process) : Process * string * option error :=
  if String.eqb (Path c) "" then
    ({| environ := environ p; world := world p;
        history := history p ++ [c] |}, "", Some "exec: no command")
  else
    let '(w, out, err) := spawn c (environ p) (world p) in
    ({| environ := environ p; world := w;
        history := history p ++ [c] |}, out, err).

(** [cmd.Output()]: refused when [Stdout] is set already; otherwise
    standard output, and standard error when unset, go to buffers; then
    [Run]. *)
Definition Cmd_Output (c : Cmd) (p : Process)
    : Process * string * option error :=
  match Stdout c with
  | Unset =>
      let c := with_Stdout c Captured in
      let c := match Stderr c with Unset => with_Stderr c Captured | _ => c end in
      Cmd_Run c p
  | _ => (p, "", Some "exec: Stdout already set")
  end.

(** The effect of the loop of [os.Setenv] calls on the process. *)
Definition apply_env (env : gmap string string) (p : Process) : Process :=
  {| environ := setenv_range env (environ p); world := world p;
     history := history p |}.

(** The same on Windows. *)
Definition apply_env_windows (env : gmap string string) (p : Process)
    : Process :=
  {| environ := setenv_range_windows win env (environ p); world := world p;
     history := history p |}.

(** The command line of each dialect. *)
Definition unix_command (script : string) : Cmd :=
  exec_Command "sh" ["-c"; ". " +:+ script +:+ " && env"].

Definition batch_command (script : string) : Cmd :=
  with_Stderr
    (with_Stdout (exec_Command "cmd.exe" ["/C"; script +:+ " && set"])
                 Captured)
    Inherited.

Definition powershell_command (script : string) : Cmd :=
  with_Stderr
    (with_Stdout
       (exec_Command "powershell.exe"
          ["-ExecutionPolicy"; "Bypass"; "-Command";
           "& {" +:+ script +:+
           "; Get-ChildItem Env: | ForEach-Object { $_.Name + '=' + $_.Value }}"])
       Captured)
    Inherited.

Definition ShellSourceUnix (script : string) (p : Process)
    : Process * option error :=
  let cmd := unix_command script in
  let '(p, output, err) := Cmd_Output cmd p in
  match err with
  | Some e => (p, Some ("Failed to execute shell script: " +:+ e))
  | None =>
      let env := parse_lines (strings_Split output newline) in
      (apply_env env p, None)
  end.

Definition ShellSourceBatch (script : string) (p : Process)
    : Process * option error :=
  let cmd := batch_command script in
  let '(p, out, err) := Cmd_Run cmd p in
  match err with
  | Some e => (p, Some ("Failed to execute .bat file: " +:+ e))
  | None =>
      let env := parse_lines (fst (bufio_scan out)) in
      (apply_env_windows env p, None)
  end.

Definition ShellSourcePowerShell (script : string) (p : Process)
    : Process * option error :=
  let cmd := powershell_command script in
  let '(p, out, err) := Cmd_Run cmd p in
  match err with
  | Some e => (p, Some ("Failed to execute .ps1 file: " +:+ e))
  | None =>
      let env := parse_lines (fst (bufio_scan out)) in
      (apply_env_windows env p, None)
  end.

(** The command [ExecuteCommands] builds from one command string, given
    the parts of the split; [None] when [parts[0]] is out of range. *)
Definition command_of_parts (parts : list string) (dir : string)
    : option Cmd :=
  match parts with
  | [] => None
  | cmdName :: _ =>
      let args := if (1 <? length parts)%nat then drop 1 parts else [] in
      Some (with_Stderr
              (with_Stdout (with_Dir (exec_Command cmdName args) dir)
                           Inherited)
              Inherited)
  end.

Definition build_command (command dir : string) : option Cmd :=
  command_of_parts (strings_Split command space) dir.

(** The [for _, command := range commands] loop. *)
Fixpoint ExecuteCommands_loop (commands : list string) (dir : string)
    (p : Process) : Process * outcome :=
  match commands with
  | [] => (p, Returned None)
  | command :: rest =>
      match build_command command dir with
      | None => (p, Panicked)
      | Some cmd =>
          let '(p, _, err) := Cmd_Run cmd p in
          match err with
          | Some e => (p, Returned (Some e))
          | None => ExecuteCommands_loop rest dir p
          end
      end
  end.

Definition ExecuteCommands (commands : list string) (dir : string)
    (p : Process) : Process * outcome :=
  if (length commands =? 0)%nat then (p, Returned None)
  else ExecuteCommands_loop commands dir p.

(** The three sourcing functions by dialect, to state what they share. *)
Inductive Dialect := posix | batch | powershell.

Definition ShellSource (d : Dialect) : string -> Process -> Process * option error :=
  match d with
  | posix => ShellSourceUnix
  | batch => ShellSourceBatch
  | powershell => ShellSourcePowerShell
  end.

(** The invocation step of a dialect: the process after the child has
    run, the captured standard output and the error of the run. *)
Definition invoke (d : Dialect) (script : string) (p : Process)
    : Process * string * option error :=
  match d with
  | posix => Cmd_Output (unix_command script) p
  | batch => Cmd_Run (batch_command script) p
  | powershell => Cmd_Run (powershell_command script) p
  end.

(** The parsing step of a dialect: the snapshot and the error the line
    reader ends with ([strings.Split] has none). *)
Definition snapshot (d : Dialect) (out : string) : gmap string string :=
  match d with
  | posix => parse_split out
  | batch | powershell => parse_scan out
  end.

Definition reader_error (d : Dialect) (out : string) : option scan_error :=
  match d with
  | posix => None
  | batch | powershell => snd (bufio_scan out)
  end.




(** The applying step of a dialect. *)
Definition apply_snapshot (d : Dialect) (env : gmap string string)
    (p : Process) : Process :=
  match d with
  | posix => apply_env env p
  | batch | powershell => apply_env_windows env p
  end.

End Host.

Arguments environ {World} _.
Arguments world {World} _.
Arguments history {World} _.
Arguments mkProcess {World} _ _ _.
Arguments Cmd_Run {World} spawn c p.
Arguments Cmd_Output {World} spawn c p.
Arguments apply_env {World} env p.
Arguments apply_env_windows {World} win env p.
Arguments apply_snapshot {World} win d env p.
Arguments ShellSourceUnix {World} spawn script p.
Arguments ShellSourceBatch {World} spawn win script p.
Arguments ShellSourcePowerShell {World} spawn win script p.
Arguments ExecuteCommands_loop {World} spawn commands dir p.
Arguments ExecuteCommands {World} spawn commands dir p.
Arguments ShellSource {World} spawn win d script p.
Arguments invoke {World} spawn d script p.

(** [run_all spawn dir p commands p']: from [p], each command string of
    [commands] was built into a command and run, in the order of the list,
    each run returned nil, and the process is then [p']. *)
Inductive run_all {World : Type}
    (spawn : Cmd -> gmap string string -> World -> World * string * option error)
    (dir : string) : Process World -> list string -> Process World -> Prop :=
| run_all_nil p : run_all spawn dir p [] p
| run_all_cons p command cmd p1 out rest p2 :
    build_command command dir = Some cmd ->
    Cmd_Run spawn cmd p = (p1, out, None) ->
    run_all spawn dir p1 rest p2 ->
    run_all spawn dir p (command :: rest) p2.

(** [run_each spawn p cmds p']: from [p], the commands of [cmds] were run
    by [Cmd.Run] one after the other, every one of them, each run returned
    nil, and the process is then [p']. *)
Inductive run_each {World : Type}
    (spawn : Cmd -> gmap string string -> World -> World * string * option error)
    : Process World -> list Cmd -> Process World -> Prop :=
| run_each_nil p : run_each spawn p [] p
| run_each_cons p cmd p1 out rest p2 :
    Cmd_Run spawn cmd p = (p1, out, None) ->
    run_each spawn p1 rest p2 ->
    run_each spawn p (cmd :: rest) p2.

(** A host for the worked examples.  Its world is the text the next shell
    child prints; a child named "false" exits with status 1 and every
    other child succeeds and prints that text. *)
Definition demo_spawn (c : Cmd) (_ : gmap string string) (w : string)
    : string * string * option error :=
  if String.eqb (Path c) "false" then (w, "", Some "exit status 1")
  else (w, w, None).

Definition demo_process (dump : string) : Process string :=
  mkProcess (<["HOME" := "/root"]> ∅) dump [].

(** A host on which no child can be started. *)
Definition broken_spawn (c : Cmd) (_ : gmap string string) (w : string)
    : string * string * option error :=
  (w, "", Some "executable file not found in $PATH").

(** A dump with a line of 70000 bytes, more than a Scanner buffers, between
    two lines that define [K], and a last line that defines [FOO]. *)
Definition overlong_dump : string :=
  "K=1" +:+ String newline
    (strings_Repeat "x" 70000 +:+ String newline
       ("K=2" +:+ String newline ("FOO=bar" +:+ String newline ""))).

(** A Windows for the worked examples: names are kept in upper case
    (ASCII letters), values read back as written, Setenv refuses what the
    POSIX one refuses, and range visits a map in the order of its list of
    entries. *)
Definition upper_byte (c : ascii) : ascii :=
  if (97 <=? N_of_ascii c)%N && (N_of_ascii c <=? 122)%N
  then ascii_of_N (N_of_ascii c - 32) else c.

Fixpoint upper_bytes (s : string) : string :=
  match s with
  | EmptyString => EmptyString
  | String c s' => String (upper_byte c) (upper_bytes s')
  end.

Definition demo_windows : Windows :=
  {| win_name := upper_bytes;
     win_value := fun value => value;
     win_accepts := setenv_valid;
     range_order := map_to_list;
     range_order_perm := fun env => Permutation_refl (map_to_list env) |}.

Global Instance Stream_eq_dec : EqDecision Stream.
Proof. solve_decision. Defined.

Global Instance Cmd_eq_dec : EqDecision Cmd.
Proof. solve_decision. Defined.

(** A command string that consists of spaces only (the empty string
    included). *)
Fixpoint only_spaces (s : string) : bool :=
  match s with
  | EmptyString => true
  | String c s' => Ascii.eqb c space && only_spaces s'
  end.

(** ** Package strings, continued: what IsWindows and IsPowerShell call *)

(** [strings.HasPrefix(s, prefix)]. *)
Fixpoint strings_HasPrefix (s prefix : string) : bool :=
  match prefix, s with
  | EmptyString, _ => true
  | String _ _, EmptyString => false
  | String c prefix', String d s' =>
      Ascii.eqb d c && strings_HasPrefix s' prefix'
  end.

(** [strings.Contains(s, substr)], that is [Index(s, substr) >= 0]: the
    text from some position of [s] on starts with [substr]. *)
Fixpoint strings_Contains (s substr : string) : bool :=
  strings_HasPrefix s substr ||
  match s with
  | EmptyString => false
  | String _ s' => strings_Contains s' substr
  end.

(** [c < utf8.RuneSelf]. *)
Definition below_RuneSelf (c : ascii) : bool := (N_of_ascii c <? 128)%N.

(** ['A' <= c && c <= 'Z']. *)
Definition is_upper (c : ascii) : bool :=
  (65 <=? N_of_ascii c)%N && (N_of_ascii c <=? 90)%N.

(** [c += 'a' - 'A'] for an upper-case byte, other bytes as they are. *)
Definition lower_byte (c : ascii) : ascii :=
  if is_upper c then ascii_of_N (N_of_ascii c + 32) else c.

Fixpoint isASCII (s : string) : bool :=
  match s with
  | EmptyString => true
  | String c s' => below_RuneSelf c && isASCII s'
  end.

Fixpoint hasUpper (s : string) : bool :=
  match s with
  | EmptyString => false
  | String c s' => is_upper c || hasUpper s'
  end.

Fixpoint lower_bytes (s : string) : string :=
  match s with
  | EmptyString => EmptyString
  | String c s' => String (lower_byte c) (lower_bytes s')
  end.

(** [strings.ToLower(s)]: a text of ASCII bytes is returned as it is when
    it has no upper-case letter and byte by byte in lower case otherwise;
    any other text goes through [Map(unicode.ToLower, s)], which is the
    parameter [unicode_ToLower]. *)
Definition strings_ToLower (unicode_ToLower : string -> string) (s : string)
    : string :=
  if isASCII s then
    if negb (hasUpper s) then s else lower_bytes s
  else unicode_ToLower s.

(** [fmt.Sprintf("%d", n)]: the decimal digits of [n], with a minus sign
    for a negative number. *)
Definition fmt_d (n : Z) : string := NilZero.string_of_int (Z.to_int n).

(** ** The interpreter locator and the platform detector *)

Section Tools.

Variable World : Type.
Variable spawn :
  Cmd -> gmap string string -> World -> World * string * option error.

(** [exec.LookPath(file)]: the path found and the error, from the
    environment (its PATH) and the world (its files).  A path can come
    with an error (the path is relative to the current directory). *)
Variable exec_LookPath :
  string -> gmap string string -> World -> string * option error.

(** [runtime.GOOS], [os.Getppid()] and [Map(unicode.ToLower, s)]. *)
Variable GOOS : string.
Variable os_Getppid : World -> Z.
Variable unicode_ToLower : string -> string.

Definition FindPython (p : Process World) : string * option error :=
  let '(pythonPath, err) := exec_LookPath "python3" (environ p) (world p) in
  match err with
  | None => (pythonPath, None)
  | Some _ =>
      let '(pythonPath, err) := exec_LookPath "python" (environ p) (world p) in
      match err with
      | None => (pythonPath, None)
      | Some _ => ("", Some "python interpreter not found")
      end
  end.

Definition FindNode (p : Process World) : string * option error :=
  let '(nodePath, err) := exec_LookPath "node" (environ p) (world p) in
  match err with
  | Some _ => ("", Some "node.js interpreter not found")
  | None => (nodePath, None)
  end.

Definition FindPip (p : Process World) : string * option error :=
  let '(path, err) := exec_LookPath "pip3" (environ p) (world p) in
  match err with
  | None => (path, None)
  | Some _ =>
      let '(path, err) := exec_LookPath "pip" (environ p) (world p) in
      match err with
      | None => (path, None)
      | Some _ => ("", Some "pip command not found")
      end
  end.

Definition uname_command : Cmd := exec_Command "uname" ["-a"].

Definition IsWindows (p : Process World) : Process World * bool :=
  if String.eqb GOOS "windows" then
    let cmd := uname_command in
    let '(p, output, err) := Cmd_Output spawn cmd p in
    match err with
    | None =>
        if strings_Contains (strings_ToLower unicode_ToLower output) "microsoft"
        then (p, false)
        else (p, true)
    | Some _ => (p, true)
    end
  else (p, false).

Definition wmic_command (parentProcessID : Z) : Cmd :=
  exec_Command "wmic"
    ["process"; "where"; "ProcessId=" +:+ fmt_d parentProcessID;
     "get"; "CommandLine"].

Definition IsPowerShell (p : Process World) : Process World * bool :=
  let parentProcessID := os_Getppid (world p) in
  let cmd := wmic_command parentProcessID in
  let '(p, output, err) := Cmd_Output spawn cmd p in
  match err with
  | Some _ => (p, false)
  | None =>
      let commandLine := strings_ToLower unicode_ToLower output in
      (p, strings_Contains commandLine "powershell.exe")
  end.

End Tools.

Arguments FindPython {World} exec_LookPath p.
Arguments FindNode {World} exec_LookPath p.
Arguments FindPip {World} exec_LookPath p.
Arguments IsWindows {World} spawn GOOS unicode_ToLower p.
Arguments IsPowerShell {World} spawn os_Getppid unicode_ToLower p.

(** ** Texts for the statements about dumps *)

(** The line [env] and [set] print for a variable. *)
Definition env_line (entry : string * string) : string :=
  entry.1 +:+ String equals_sign entry.2.

(** The dump of a sequence of variables: one line each, every line ended
    by a newline. *)
Fixpoint env_dump (entries : list (string * string)) : string :=
  match entries with
  | [] => EmptyString
  | entry :: rest => env_line entry +:+ String newline (env_dump rest)
  end.

(** An entry whose line can be told apart in a dump: no equals sign in the
    name, no newline in name or value. *)
Definition dump_entry_ok (entry : string * string) : Prop :=
  contains_byte entry.1 equals_sign = false /\
  contains_byte entry.1 newline = false /\
  contains_byte entry.2 newline = false.

(** The same dump with Windows line ends: a carriage return before every
    newline. *)
Fixpoint crlf_dump (entries : list (string * string)) : string :=
  match entries with
  | [] => EmptyString
  | entry :: rest =>
      env_line entry +:+
      String carriage_return (String newline (crlf_dump rest))
  end.

(** An entry with a carriage return after its value. *)
Definition with_CR (entry : string * string) : string * string :=
  (entry.1, entry.2 +:+ String carriage_return "").

(** What every command that ExecuteCommands builds for the working
    directory [dir] looks like. *)
Definition runner_command (dir : string) (cmd : Cmd) : Prop :=
  Dir cmd = dir /\ Stdout cmd = Inherited /\ Stderr cmd = Inherited /\
  (exists args, Args cmd = Path cmd :: args) /\
  Forall (fun arg => contains_byte arg space = false) (Args cmd).

(** The path of the first of the candidate names, in their order, that
    [exec.LookPath] finds without error. *)
Fixpoint first_found {World : Type}
    (exec_LookPath : string -> gmap string string -> World ->
                     string * option error)
    (names : list string) (p : Process World) : option string :=
  match names with
  | [] => None
  | name :: rest =>
      match exec_LookPath name (environ p) (world p) with
      | (path, None) => Some path
      | (_, Some _) => first_found exec_LookPath rest p
      end
  end.

(** A line short enough for a scanner whose largest buffer has [size]
    bytes, and for the scanner of utils.go. *)
Definition shorter_than (size : N) (line : string) : Prop :=
  (N.of_nat (String.length line) < size)%N.

Definition short_line (line : string) : Prop :=
  shorter_than MaxScanTokenSize line.

(** A search path for the worked examples: it has python, pip3 and pip,
    and neither python3 nor node. *)
Definition demo_LookPath (file : string) (_ : gmap string string) (_ : string)
    : string * option error :=
  if bool_decide (file ∈ ["python"; "pip3"; "pip"])
  then ("/usr/bin/" +:+ file, None)
  else ("", Some "executable file not found in $PATH").

(** * Properties *)

(** ** Package strings *)

Example Split_ex1 : strings_Split "a b c" space = ["a"; "b"; "c"].
Proof. reflexivity. Qed.
Example Split_ex2 : strings_Split "" space = [""].
Proof. reflexivity. Qed.
Example Split_ex3 : strings_Split "a  b " space = ["a"; ""; "b"; ""].
Proof. reflexivity. Qed.
Example SplitN_ex1 : strings_SplitN "A=b=c" equals_sign 2 = ["A"; "b=c"].
Proof. reflexivity. Qed.
Example SplitN_ex2 : strings_SplitN "banner" equals_sign 2 = ["banner"].
Proof. reflexivity. Qed.
Example SplitN_ex3 : strings_SplitN "=v" equals_sign 2 = [""; "v"].
Proof. reflexivity. Qed.
Example SplitN_ex4 : strings_SplitN "" equals_sign 2 = [""].
Proof. reflexivity. Qed.

Section StringFacts.

Variable sep : ascii.

Lemma Count_le_length s : strings_Count s sep <= String.length s.
Proof.
  induction s as [|c s IH]; simpl; [lia|].
  destruct (Ascii.eqb c sep); lia.
Qed.

Lemma Cut_None s :
  strings_Cut s sep = None <-> contains_byte s sep = false.
Proof.
  induction s as [|c s IH]; simpl; [tauto|].
  destruct (Ascii.eqb c sep); simpl; [split; discriminate|].
  destruct (strings_Cut s sep) as [[b a]|]; [|tauto].
  split; [discriminate|]. intros H. apply IH in H. discriminate.
Qed.

Lemma Cut_Some s before after :
  strings_Cut s sep = Some (before, after) ->
  s = before +:+ String sep after /\ contains_byte before sep = false.
Proof.
  revert before. induction s as [|c s IH]; intros before; simpl; [discriminate|].
  destruct (Ascii.eqb_spec c sep) as [->|Hne].
  - intros [= <- <-]. auto.
  - destruct (strings_Cut s sep) as [[b a]|]; [|discriminate].
    intros [= <- <-]. destruct (IH b eq_refl) as [-> Hb]. simpl.
    split; [reflexivity|].
    rewrite Hb. destruct (Ascii.eqb_spec c sep); [contradiction|reflexivity].
Qed.

Lemma Cut_app before after :
  contains_byte before sep = false ->
  strings_Cut (before +:+ String sep after) sep = Some (before, after).
Proof.
  induction before as [|c b IH]; simpl.
  - intros _. rewrite Ascii.eqb_refl. reflexivity.
  - destruct (Ascii.eqb c sep); simpl; [discriminate|].
    intros H. rewrite (IH H). reflexivity.
Qed.

Lemma genSplit_loop_cons cuts c s :
  c <> sep ->
  genSplit_loop cuts (String c s) sep =
  match genSplit_loop cuts s sep with
  | first :: rest => String c first :: rest
  | [] => []
  end.
Proof.
  intros Hne. destruct cuts as [|k]; simpl; [reflexivity|].
  destruct (Ascii.eqb_spec c sep); [contradiction|].
  destruct (strings_Cut s sep) as [[b a]|]; reflexivity.
Qed.

Lemma Split_unfold s :
  strings_Split s sep = genSplit_loop (strings_Count s sep) s sep.
Proof.
  unfold strings_Split, genSplit. simpl.
  pose proof (Count_le_length s).
  destruct (Z.ltb_spec (Z.of_nat (String.length s) + 1)
              (Z.of_nat (strings_Count s sep) + 1)); [lia|].
  f_equal. lia.
Qed.

Lemma Split_empty : strings_Split EmptyString sep = [EmptyString].
Proof. reflexivity. Qed.

Lemma Split_sep s :
  strings_Split (String sep s) sep = EmptyString :: strings_Split s sep.
Proof.
  rewrite !Split_unfold. cbn [strings_Count]. rewrite Ascii.eqb_refl.
  cbn [genSplit_loop strings_Cut]. by rewrite Ascii.eqb_refl.
Qed.

Lemma Split_other c s :
  c <> sep ->
  strings_Split (String c s) sep =
  match strings_Split s sep with
  | first :: rest => String c first :: rest
  | [] => []
  end.
Proof.
  intros Hne. rewrite !Split_unfold. cbn [strings_Count].
  destruct (Ascii.eqb_spec c sep); [contradiction|].
  by apply genSplit_loop_cons.
Qed.

Lemma Split_not_nil s : strings_Split s sep <> [].
Proof.
  induction s as [|c s IH]; [discriminate|].
  destruct (Ascii.eqb_spec c sep) as [->|Hne].
  - rewrite Split_sep. discriminate.
  - rewrite Split_other by done.
    destruct (strings_Split s sep); [contradiction|discriminate].
Qed.

Lemma Split_no_sep s :
  Forall (fun part => contains_byte part sep = false) (strings_Split s sep).
Proof.
  induction s as [|c s IH]; [repeat constructor|].
  destruct (Ascii.eqb_spec c sep) as [->|Hne].
  - rewrite Split_sep. by constructor.
  - rewrite Split_other by done.
    destruct (strings_Split s sep) as [|first rest]; [constructor|].
    inversion IH; subst. constructor; [|done]. simpl.
    destruct (Ascii.eqb_spec c sep); [contradiction|done].
Qed.

Lemma Join_cons e rest :
  rest <> [] ->
  strings_Join (e :: rest) sep = e +:+ String sep (strings_Join rest sep).
Proof. destruct rest; [contradiction|reflexivity]. Qed.

Lemma Join_Split s : strings_Join (strings_Split s sep) sep = s.
Proof.
  induction s as [|c s IH]; [reflexivity|].
  destruct (Ascii.eqb_spec c sep) as [->|Hne].
  - rewrite Split_sep, Join_cons by apply Split_not_nil.
    simpl. by rewrite IH.
  - rewrite Split_other by done. pose proof (Split_not_nil s) as Hnil.
    destruct (strings_Split s sep) as [|first rest]; [contradiction|].
    destruct rest as [|second rest]; simpl in *; by rewrite <- IH.
Qed.

Lemma Split_length s :
  length (strings_Split s sep) = S (strings_Count s sep).
Proof.
  induction s as [|c s IH]; [reflexivity|]. cbn [strings_Count].
  destruct (Ascii.eqb_spec c sep) as [->|Hne].
  - rewrite Split_sep. simpl. by rewrite IH.
  - rewrite Split_other by done.
    destruct (strings_Split s sep); simpl in *; lia.
Qed.

Lemma Split_app before after :
  contains_byte before sep = false ->
  strings_Split (before +:+ String sep after) sep =
  before :: strings_Split after sep.
Proof.
  induction before as [|c b IH]; cbn [contains_byte].
  - intros _. apply Split_sep.
  - destruct (Ascii.eqb_spec c sep) as [|Hne]; [discriminate|].
    intros H. change (String c b +:+ String sep after)
      with (String c (b +:+ String sep after)).
    rewrite Split_other by done. by rewrite (IH H).
Qed.

Lemma Split_whole s :
  contains_byte s sep = false -> strings_Split s sep = [s].
Proof.
  induction s as [|c s IH]; cbn [contains_byte]; [reflexivity|].
  destruct (Ascii.eqb_spec c sep) as [|Hne]; [discriminate|].
  intros H. rewrite Split_other by done. by rewrite (IH H).
Qed.

Lemma Split_Join elems :
  elems <> [] ->
  Forall (fun e => contains_byte e sep = false) elems ->
  strings_Split (strings_Join elems sep) sep = elems.
Proof.
  intros Hnil Hall. induction Hall as [|e rest He Hrest IH]; [contradiction|].
  destruct rest as [|e' rest'].
  - simpl. by apply Split_whole.
  - rewrite Join_cons by discriminate. rewrite Split_app by done.
    f_equal. by apply IH.
Qed.

Lemma SplitN_2 s :
  strings_SplitN s sep 2 =
  match strings_Cut s sep with
  | Some (before, after) => [before; after]
  | None => [s]
  end.
Proof.
  unfold strings_SplitN, genSplit. simpl.
  destruct s as [|c s]; [reflexivity|].
  destruct (Z.ltb_spec (Z.of_nat (String.length (String c s)) + 1) 2) as [Hlt|_].
  - simpl in Hlt. lia.
  - change (Z.to_nat (2 - 1)) with 1. cbn [genSplit_loop].
    destruct (strings_Cut (String c s) sep) as [[b a]|]; reflexivity.
Qed.

End StringFacts.

(** ** The parsing loop *)

Lemma line_entry_Cut line :
  line_entry line = strings_Cut line equals_sign.
Proof.
  unfold line_entry. rewrite SplitN_2.
  by destruct (strings_Cut line equals_sign) as [[b a]|].
Qed.

Lemma parse_line_entry env line :
  parse_line env line =
  match line_entry line with
  | Some (key, value) => <[key := value]> env
  | None => env
  end.
Proof.
  unfold parse_line, line_entry.
  destruct (strings_SplitN line equals_sign 2) as [|a [|b [|c l]]]; reflexivity.
Qed.

Lemma line_entry_None line :
  line_entry line = None <-> contains_byte line equals_sign = false.
Proof. rewrite line_entry_Cut. apply Cut_None. Qed.

Lemma line_entry_Some line key value :
  line_entry line = Some (key, value) <->
  line = key +:+ String equals_sign value /\
  contains_byte key equals_sign = false.
Proof.
  rewrite line_entry_Cut. split.
  - apply Cut_Some.
  - intros [-> Hk]. by apply Cut_app.
Qed.

Lemma parse_fold_app pre post env :
  fold_left parse_line (pre ++ post) env =
  fold_left parse_line post (fold_left parse_line pre env).
Proof. apply fold_left_app. Qed.

(** A line without equals sign leaves the snapshot as it is. *)
Lemma parse_line_skip env line :
  contains_byte line equals_sign = false -> parse_line env line = env.
Proof.
  intros H. rewrite parse_line_entry.
  apply line_entry_None in H. by rewrite H.
Qed.

(** Lines that do not define [key] leave its entry as it is. *)
Lemma parse_fold_other lines env key :
  Forall (fun l => forall v, line_entry l <> Some (key, v)) lines ->
  fold_left parse_line lines env !! key = env !! key.
Proof.
  intros Hall. revert env.
  induction Hall as [|l lines Hl _ IH]; intros env; [reflexivity|].
  simpl. rewrite IH, parse_line_entry.
  destruct (line_entry l) as [[k v]|] eqn:E; [|reflexivity].
  apply lookup_insert_ne. intros ->. by apply (Hl v).
Qed.

(** Last write wins, on any sequence of lines. *)
Lemma parse_fold_last pre line post env key value :
  line_entry line = Some (key, value) ->
  Forall (fun l => forall v, line_entry l <> Some (key, v)) post ->
  fold_left parse_line (pre ++ line :: post) env !! key = Some value.
Proof.
  intros Hline Hpost. rewrite parse_fold_app. simpl.
  rewrite parse_fold_other by done.
  rewrite parse_line_entry, Hline. apply lookup_insert_eq.
Qed.

(** Every entry of the result was in the start map, and then no line
    defines its key, or comes from a line. *)
Lemma parse_fold_origin lines env key value :
  fold_left parse_line lines env !! key = Some value ->
  (env !! key = Some value /\
   Forall (fun l => forall v, line_entry l <> Some (key, v)) lines) \/
  exists line, In line lines /\ line_entry line = Some (key, value).
Proof.
  revert env. induction lines as [|l lines IH]; intros env; simpl; [auto|].
  intros H. apply IH in H as [[H Hall]|(line & Hin & Hline)]; [|eauto].
  rewrite parse_line_entry in H.
  destruct (line_entry l) as [[k v]|] eqn:E.
  - destruct (decide (k = key)) as [->|Hne].
    + rewrite lookup_insert_eq in H. injection H as ->. eauto.
    + rewrite lookup_insert_ne in H by done. left. split; [done|].
      constructor; [|done]. rewrite E. congruence.
  - left. split; [done|]. constructor; [|done]. rewrite E. congruence.
Qed.

(** Every line with an equals sign leaves its key in the snapshot. *)
Lemma parse_fold_defined lines env line key value :
  In line lines -> line_entry line = Some (key, value) ->
  is_Some (fold_left parse_line lines env !! key).
Proof.
  revert env. induction lines as [|l lines IH]; intros env; simpl; [tauto|].
  intros [->|Hin] Hline; [|eauto].
  assert (Hmono : forall ls e, is_Some (e !! key) ->
                    is_Some (fold_left parse_line ls e !! key)).
  { clear. induction ls as [|l ls IH]; intros e He; simpl; [done|].
    apply IH. rewrite parse_line_entry.
    destruct (line_entry l) as [[k v]|]; [|done].
    destruct (decide (k = key)) as [->|Hne].
    - rewrite lookup_insert_eq. eauto.
    - by rewrite lookup_insert_ne. }
  apply Hmono. rewrite parse_line_entry, Hline, lookup_insert_eq. eauto.
Qed.

Example parse_ex1 :
  parse_split ("A=1" +:+ String newline "banner" +:+ String newline "A=2=3")
  = <["A" := "2=3"]> ∅.
Proof.
  apply map_eq. intros k. vm_compute. reflexivity.
Qed.

(** ** The line scanner *)

Lemma string_app_cons c s t : String c s +:+ t = String c (s +:+ t).
Proof. reflexivity. Qed.

Lemma string_app_nil_r s : s +:+ "" = s.
Proof.
  induction s as [|c s IH]; [done|]. by rewrite string_app_cons, IH.
Qed.

Lemma string_app_assoc s1 s2 s3 : (s1 +:+ s2) +:+ s3 = s1 +:+ (s2 +:+ s3).
Proof.
  induction s1 as [|c s1 IH]; [done|]. by rewrite !string_app_cons, IH.
Qed.

Lemma string_app_length s1 s2 :
  String.length (s1 +:+ s2) = String.length s1 + String.length s2.
Proof.
  induction s1 as [|c s1 IH]; [done|].
  rewrite string_app_cons. simpl. by rewrite IH.
Qed.

Lemma contains_byte_app s1 s2 c :
  contains_byte (s1 +:+ s2) c = contains_byte s1 c || contains_byte s2 c.
Proof.
  induction s1 as [|c1 s1 IH]; [done|].
  rewrite string_app_cons. simpl. by rewrite IH, orb_assoc.
Qed.

Lemma string_of_list_ascii_app l1 l2 :
  string_of_list_ascii (l1 ++ l2) =
  string_of_list_ascii l1 +:+ string_of_list_ascii l2.
Proof.
  induction l1 as [|c l1 IH]; [done|].
  simpl. by rewrite string_app_cons, IH.
Qed.

Lemma held_text_cons c held :
  held_text (c :: held) = held_text held +:+ String c "".
Proof. unfold held_text. simpl. by rewrite string_of_list_ascii_app. Qed.

Lemma held_text_length held : String.length (held_text held) = length held.
Proof.
  induction held as [|c held IH]; [done|].
  rewrite held_text_cons, string_app_length, IH. simpl. lia.
Qed.

Lemma dropCR_snoc s c :
  dropCR (s +:+ String c "") =
  if Ascii.eqb c carriage_return then s else s +:+ String c "".
Proof.
  induction s as [|c0 s IH]; [done|].
  change (String c0 s +:+ String c "") with (String c0 (s +:+ String c "")).
  cbn [dropCR]. rewrite IH.
  destruct s; simpl; by destruct (Ascii.eqb c carriage_return).
Qed.

Lemma line_token_dropCR held : line_token held = dropCR (held_text held).
Proof.
  destruct held as [|c before]; [done|].
  rewrite held_text_cons, dropCR_snoc. unfold line_token, held_text.
  destruct (Ascii.eqb c carriage_return); [done|].
  simpl. by rewrite string_of_list_ascii_app.
Qed.

Lemma text_lines_cons line rest :
  contains_byte line newline = false ->
  text_lines (line +:+ String newline rest) = line :: text_lines rest.
Proof.
  intros H. unfold text_lines. rewrite Split_app by done.
  pose proof (Split_not_nil newline rest) as Hnil.
  destruct (strings_Split rest newline) as [|a l]; [done|].
  change (last (line :: a :: l)) with (last (a :: l)).
  by destruct (last (a :: l)) as [[|]|].
Qed.

Lemma text_lines_whole line :
  contains_byte line newline = false ->
  text_lines line = match line with EmptyString => [] | _ => [line] end.
Proof.
  intros H. unfold text_lines. rewrite Split_whole by done.
  by destruct line.
Qed.

Section ScanFacts.

Variable maxTokenSize : N.

(** When the scanner ends without error, its tokens are the lines of the
    text, each without its trailing carriage return. *)
Lemma scan_lines_complete data held n tokens :
  contains_byte (held_text held) newline = false ->
  scan_lines maxTokenSize data held n = (tokens, None) ->
  tokens = dropCR <$> text_lines (held_text held +:+ data).
Proof.
  revert held n tokens.
  induction data as [|c rest IH]; intros held n tokens Hheld; simpl.
  - rewrite string_app_nil_r, text_lines_whole by done.
    intros [= <-]. destruct held as [|c before]; [done|].
    rewrite line_token_dropCR, held_text_cons.
    by destruct (held_text before).
  - destruct (Ascii.eqb_spec c newline) as [->|Hne].
    + destruct (scan_lines maxTokenSize rest [] 0) as [tokens' err] eqn:E.
      intros [= <- ->]. rewrite text_lines_cons by done.
      rewrite (IH [] 0%N tokens') by done.
      by rewrite line_token_dropCR.
    + destruct (maxTokenSize <=? n + 1)%N; [discriminate|].
      intros H. apply IH in H.
      * by rewrite held_text_cons, string_app_assoc in H.
      * rewrite held_text_cons, contains_byte_app, Hheld. simpl.
        by destruct (Ascii.eqb_spec c newline).
Qed.

Lemma Split_prepend sep s t :
  contains_byte s sep = false ->
  strings_Split (s +:+ t) sep =
  match strings_Split t sep with
  | first :: others => (s +:+ first) :: others
  | [] => []
  end.
Proof.
  induction s as [|c s IH]; cbn [contains_byte].
  - intros _. change ("" +:+ t) with t.
    pose proof (Split_not_nil sep t).
    by destruct (strings_Split t sep).
  - destruct (Ascii.eqb_spec c sep) as [|Hne]; [discriminate|].
    intros H. rewrite string_app_cons.
    rewrite Split_other, (IH H) by done.
    by destruct (strings_Split t sep).
Qed.

(** The scanner ends without error when every line of the text is shorter
    than the largest buffer. *)
Lemma scan_lines_ok data held n :
  n = N.of_nat (length held) ->
  contains_byte (held_text held) newline = false ->
  Forall (fun line => (N.of_nat (String.length line) < maxTokenSize)%N)
         (strings_Split (held_text held +:+ data) newline) ->
  (scan_lines maxTokenSize data held n).2 = None.
Proof.
  revert held n.
  induction data as [|c rest IH]; intros held n Hn Hheld Hall; simpl; [done|].
  destruct (Ascii.eqb_spec c newline) as [->|Hne].
  - rewrite Split_app in Hall by done. inversion Hall; subst.
    specialize (IH [] 0%N eq_refl eq_refl).
    destruct (scan_lines maxTokenSize rest [] 0) as [tokens err].
    by apply IH.
  - assert (Hlt : (n + 1 < maxTokenSize)%N).
    { rewrite Split_prepend, Split_other in Hall by done.
      pose proof (Split_not_nil newline rest) as Hnil.
      destruct (strings_Split rest newline) as [|first others]; [done|].
      inversion Hall as [|? ? Hfirst _]; subst.
      rewrite string_app_length, held_text_length in Hfirst.
      simpl in Hfirst. lia. }
    destruct (N.leb_spec maxTokenSize (n + 1)); [lia|].
    apply IH.
    + simpl. lia.
    + rewrite held_text_cons, contains_byte_app, Hheld. simpl.
      by destruct (Ascii.eqb_spec c newline).
    + by rewrite held_text_cons, string_app_assoc.
Qed.

End ScanFacts.

Lemma bufio_scan_complete out :
  (bufio_scan out).2 = None ->
  (bufio_scan out).1 = dropCR <$> text_lines out.
Proof.
  unfold bufio_scan.
  destruct (scan_lines MaxScanTokenSize out [] 0) as [tokens err] eqn:E.
  simpl. intros ->. by apply scan_lines_complete in E.
Qed.

Lemma bufio_scan_ok out :
  Forall (fun line => (N.of_nat (String.length line) < MaxScanTokenSize)%N)
         (strings_Split out newline) ->
  (bufio_scan out).2 = None.
Proof. intros H. by apply scan_lines_ok. Qed.

(** On the text the scanner-based functions parse, when the scanner ends
    without error: the value of a key is the one of the last line that
    defines it. *)
Lemma parse_scan_last_wins out pre line post key value :
  (bufio_scan out).2 = None ->
  dropCR <$> text_lines out = (pre ++ line :: post)%list ->
  line_entry line = Some (key, value) ->
  Forall (fun l => forall v, line_entry l <> Some (key, v)) post ->
  parse_scan out !! key = Some value.
Proof.
  intros Hok Hlines Hline Hpost. unfold parse_scan, parse_lines.
  rewrite bufio_scan_complete, Hlines by done.
  by apply parse_fold_last.
Qed.

(** X23.  On the text the scanner-based functions parse, when the
    scanner ends without error, a line without equals sign adds nothing
    and does not end the parsing. *)
Lemma parse_scan_skips_line out pre line post :
  (bufio_scan out).2 = None ->
  dropCR <$> text_lines out = (pre ++ line :: post)%list ->
  contains_byte line equals_sign = false ->
  parse_scan out = parse_lines (pre ++ post).
Proof.
  intros Hok Hlines Hline. unfold parse_scan, parse_lines.
  rewrite bufio_scan_complete, Hlines, !parse_fold_app by done.
  simpl. by rewrite parse_line_skip.
Qed.

Example bufio_scan_ex1 :
  bufio_scan ("A=1" +:+ String carriage_return (String newline
                ("" +:+ String newline "B=2")))
  = (["A=1"; ""; "B=2"], None).
Proof. reflexivity. Qed.

(** ** The process environment *)

Lemma os_Setenv_lookup key value environ k :
  (os_Setenv key value environ).1 !! k =
  if decide (key = k) then
    if setenv_valid key value then Some value else environ !! k
  else environ !! k.
Proof.
  unfold os_Setenv. destruct (setenv_valid key value); simpl.
  - apply lookup_insert.
  - by destruct (decide (key = k)).
Qed.

(** The environment after the loop of Setenv calls, variable by variable. *)
Lemma setenv_range_lookup env environ k :
  setenv_range env environ !! k =
  match env !! k with
  | Some value => if setenv_valid k value then Some value else environ !! k
  | None => environ !! k
  end.
Proof.
  unfold setenv_range.
  apply (map_fold_weak_ind (fun r m =>
    r !! k = match m !! k with
             | Some value =>
                 if setenv_valid k value then Some value else environ !! k
             | None => environ !! k
             end)).
  - by rewrite lookup_empty.
  - intros i x m r Hi IH. rewrite os_Setenv_lookup, lookup_insert.
    destruct (decide (i = k)) as [->|Hne]; [|done].
    rewrite Hi in IH. by rewrite IH.
Qed.

Lemma setenv_seq_lookup entries environ k :
  NoDup entries.*1 ->
  setenv_seq entries environ !! k =
  match (list_to_map entries : gmap string string) !! k with
  | Some value => if setenv_valid k value then Some value else environ !! k
  | None => environ !! k
  end.
Proof.
  revert environ. induction entries as [|[k0 v0] entries IH]; intros environ Hnd.
  - simpl. by rewrite lookup_empty.
  - apply NoDup_cons in Hnd as [Hk0 Hnd]. unfold setenv_seq in *. simpl.
    rewrite IH by done. rewrite os_Setenv_lookup, lookup_insert.
    destruct (decide (k0 = k)) as [->|Hne]; [|done].
    by rewrite (not_elem_of_list_to_map_1 _ _ Hk0).
Qed.

(** X1.  Go does not fix the order in which [range] visits a map: on the
    path of ShellSourceUnix, where a name is its bytes, whatever order the
    entries of the snapshot come in, the loop of Setenv calls leaves the
    same environment. *)
Lemma setenv_range_order env environ entries :
  entries ≡ₚ map_to_list env ->
  setenv_seq entries environ = setenv_range env environ.
Proof.
  intros Hperm. apply map_eq. intros k.
  assert (Hnd : NoDup entries.*1).
  { rewrite Hperm. apply NoDup_fst_map_to_list. }
  rewrite setenv_seq_lookup, setenv_range_lookup by done.
  assert (list_to_map entries = env) as ->; [|done].
  rewrite <- (list_to_map_to_list env).
  apply list_to_map_proper; [done|done].
Qed.

Section HostFacts.

Context {World : Type}.
Variable spawn :
  Cmd -> gmap string string -> World -> World * string * option error.
Variable win : Windows.

Lemma Cmd_Run_environ c p :
  environ (Cmd_Run spawn c p).1.1 = environ p.
Proof.
  unfold Cmd_Run. destruct (String.eqb (Path c) ""); [reflexivity|].
  by destruct (spawn c (environ p) (world p)) as [[w out] err].
Qed.

Lemma Cmd_Run_history c p :
  history (Cmd_Run spawn c p).1.1 = (history p ++ [c])%list.
Proof.
  unfold Cmd_Run. destruct (String.eqb (Path c) ""); [reflexivity|].
  by destruct (spawn c (environ p) (world p)) as [[w out] err].
Qed.

Lemma invoke_environ d script p :
  environ (invoke spawn d script p).1.1 = environ p.
Proof. destruct d; apply Cmd_Run_environ. Qed.

(** What each sourcing function returns, by the result of its
    invocation step. *)
Lemma ShellSource_failure d script p p1 out e :
  invoke spawn d script p = (p1, out, Some e) ->
  exists msg, ShellSource spawn win d script p = (p1, Some msg).
Proof.
  destruct d; simpl; unfold ShellSourceUnix, ShellSourceBatch,
    ShellSourcePowerShell; intros ->; eauto.
Qed.

Lemma ShellSource_success d script p p1 out :
  invoke spawn d script p = (p1, out, None) ->
  ShellSource spawn win d script p
  = (apply_snapshot win d (snapshot d out) p1, None).
Proof.
  destruct d; simpl; unfold ShellSourceUnix, ShellSourceBatch,
    ShellSourcePowerShell; intros ->; reflexivity.
Qed.



End HostFacts.

(** ** Sourcing: what a call does to the environment *)





(** The applying step of any dialect, name by name. *)
Section ApplySnapshot.

Context {World : Type}.
Variable win : Windows.
Variable d : Dialect.
Variable env : gmap string string.
Variable p : Process World.




End ApplySnapshot.



(** On the example Windows, the dump line [Home=...] overwrites the
    variable HOME of the process: the two names are one variable there. *)
Example ShellSourceBatch_folds_case :
  environ (ShellSourceBatch demo_spawn demo_windows "env.bat"
             (demo_process "Home=C:\Users\me")).1 !! "HOME"
  = Some "C:\Users\me" /\
  environ (ShellSourceBatch demo_spawn demo_windows "env.bat"
             (demo_process "Home=C:\Users\me")).1 !! "Home" = None /\
  snapshot batch "Home=C:\Users\me" !! "HOME" = None.
Proof. vm_compute. auto. Qed.


(** C3.  When the invocation of the dialect's child process fails, the
    sourcing function returns a non-nil error and the environment of the
    process is the one it had before the call. *)
Theorem ShellSource_invocation_failure {World : Type}
    (spawn : Cmd -> gmap string string -> World -> World * string * option error)
    (win : Windows)
    (d : Dialect) (script : string) (p p1 : Process World)
    (out : string) (e : error) :
  invoke spawn d script p = (p1, out, Some e) ->
  (ShellSource spawn win d script p).2 <> None /\
  environ (ShellSource spawn win d script p).1 = environ p.
Proof.
  intros Hinv.
  destruct (ShellSource_failure _ win _ _ _ _ _ _ Hinv) as [msg ->].
  simpl. split; [discriminate|].
  pose proof (invoke_environ spawn d script p) as Henv.
  by rewrite Hinv in Henv.
Qed.

Lemma ShellSource_invocation_failure_witness :
  (ShellSource broken_spawn demo_windows batch "env.bat"
     (demo_process "A=1")).2 <> None /\
  environ (ShellSource broken_spawn demo_windows batch "env.bat"
             (demo_process "A=1")).1
  = environ (demo_process "A=1").
Proof.
  apply (ShellSource_invocation_failure broken_spawn demo_windows batch
           "env.bat"
           (demo_process "A=1")
           (mkProcess (environ (demo_process "A=1")) "A=1"
                      [batch_command "env.bat"])
           "" "executable file not found in $PATH").
  reflexivity.
Defined.

(** ** Sourcing: errors of the line reader *)

(** A sourcing function returns nil exactly when its invocation step
    does: nothing that happens while the dump is read reaches the caller. *)
Lemma ShellSource_nil_iff {World : Type}
    (spawn : Cmd -> gmap string string -> World -> World * string * option error)
    (win : Windows)
    (d : Dialect) (script : string) (p : Process World) :
  (ShellSource spawn win d script p).2 = None <->
  (invoke spawn d script p).2 = None.
Proof.
  destruct (invoke spawn d script p) as [[p1 out] [e|]] eqn:E; simpl.
  - destruct (ShellSource_failure _ win _ _ _ _ _ _ E) as [msg ->]. simpl.
    split; discriminate.
  - by rewrite (ShellSource_success _ win _ _ _ _ _ E).
Qed.

(** C4, at the failing input.  The child of ShellSourceBatch and of
    ShellSourcePowerShell prints [overlong_dump]: the scanner ends with
    ErrTooLong after the first line, both functions return nil all the
    same, and [FOO], defined after the long line, is not set.
    ShellSourceUnix, which splits the whole text, sets it.  Whatever the
    Windows is, the two functions return nil, and [FOO] is not in the
    snapshot they apply. *)
Theorem ShellSource_scan_error_swallowed :
  reader_error batch overlong_dump = Some ErrTooLong /\
  (ShellSourceBatch demo_spawn demo_windows "env.bat"
     (demo_process overlong_dump)).2 = None /\
  (ShellSourcePowerShell demo_spawn demo_windows "env.ps1"
     (demo_process overlong_dump)).2 = None /\
  environ (ShellSourceBatch demo_spawn demo_windows "env.bat"
             (demo_process overlong_dump)).1 !! "FOO" = None /\
  environ (ShellSourcePowerShell demo_spawn demo_windows "env.ps1"
             (demo_process overlong_dump)).1 !! "FOO" = None /\
  environ (ShellSourceUnix demo_spawn "env.sh"
             (demo_process overlong_dump)).1 !! "FOO" = Some "bar" /\
  (forall win : Windows,
     (ShellSourceBatch demo_spawn win "env.bat"
        (demo_process overlong_dump)).2 = None /\
     (ShellSourcePowerShell demo_spawn win "env.ps1"
        (demo_process overlong_dump)).2 = None) /\
  snapshot batch overlong_dump = <["K" := "1"]> ∅ /\
  snapshot powershell overlong_dump = <["K" := "1"]> ∅.
Proof.
  do 6 (split; [by vm_compute|]).
  split; [intros win; split; reflexivity|].
  split; apply map_eq; intros k; vm_compute; reflexivity.
Qed.

(** ** Parsing: last write wins *)

(** X22.  On the text ShellSourceUnix parses, whatever it is: the value
    of a key is the one of the last line that defines it. *)
Lemma parse_split_last_wins output pre line post key value :
  strings_Split output newline = (pre ++ line :: post)%list ->
  line_entry line = Some (key, value) ->
  Forall (fun l => forall v, line_entry l <> Some (key, v)) post ->
  parse_split output !! key = Some value.
Proof.
  intros Hsplit Hline Hpost. unfold parse_split, parse_lines.
  rewrite Hsplit. by apply parse_fold_last.
Qed.

(** C2, at the failing input.  [overlong_dump] has the lines [K=1] and,
    after a line of 70000 bytes without equals sign, [K=2].  The snapshot of the scanner-based
    functions maps [K] to the value of the first of them, because the
    scanner stops at the long line; the snapshot of ShellSourceUnix maps it
    to the value of the last. *)
Theorem parse_scan_not_last_write :
  line_entry <$> strings_Split overlong_dump newline =
    [Some ("K", "1"); None; Some ("K", "2"); Some ("FOO", "bar"); None] /\
  parse_scan overlong_dump !! "K" = Some "1" /\
  parse_split overlong_dump !! "K" = Some "2".
Proof. vm_compute. repeat split. Qed.

(** ** Parsing: lines without equals sign *)

(** C5.  In the text ShellSourceUnix parses, a line without equals sign
    (a blank line is one) adds nothing: the snapshot is the one of the text
    without that line.  Parsing goes on past it: the key of every line
    with an equals sign after it is in the snapshot, with a value that a
    line after it gives. *)
Theorem parse_split_skips_line (output : string) (pre : list string)
    (line : string) (post : list string) :
  strings_Split output newline = (pre ++ line :: post)%list ->
  contains_byte line equals_sign = false ->
  parse_split output = parse_lines (pre ++ post) /\
  forall l key value, In l post -> line_entry l = Some (key, value) ->
    exists l' value', In l' post /\ line_entry l' = Some (key, value') /\
                      parse_split output !! key = Some value'.
Proof.
  intros Hsplit Hline.
  assert (Heq : parse_split output = parse_lines (pre ++ post)).
  { unfold parse_split, parse_lines. rewrite Hsplit, !parse_fold_app.
    simpl. by rewrite parse_line_skip. }
  split; [done|]. intros l key value Hin Hl.
  rewrite Heq. unfold parse_lines. rewrite parse_fold_app.
  destruct (parse_fold_defined post (fold_left parse_line pre ∅) l key value
              Hin Hl) as [value' Hv].
  destruct (parse_fold_origin _ _ _ _ Hv) as [[_ Hall]|(l' & Hin' & Hl')].
  - rewrite List.Forall_forall in Hall. by destruct (Hall l Hin value).
  - eauto.
Qed.

Lemma parse_split_skips_line_witness :
  parse_split ("A=1" +:+ String newline ("" +:+ String newline
                 ("banner" +:+ String newline "B=2")))
  = parse_lines (["A=1"; ""] ++ ["B=2"]) /\
  forall l key value, In l ["B=2"] -> line_entry l = Some (key, value) ->
    exists l' value', In l' ["B=2"] /\ line_entry l' = Some (key, value') /\
      parse_split ("A=1" +:+ String newline ("" +:+ String newline
                     ("banner" +:+ String newline "B=2"))) !! key
      = Some value'.
Proof.
  apply (parse_split_skips_line _ ["A=1"; ""] "banner" ["B=2"]);
    reflexivity.
Defined.

(** ** Parsing: the keys of a snapshot *)

Lemma parse_lines_key_no_equals lines key :
  is_Some (parse_lines lines !! key) ->
  contains_byte key equals_sign = false.
Proof.
  intros [value H]. apply parse_fold_origin in H as [[H _]|(l & _ & Hl)].
  - by rewrite lookup_empty in H.
  - by apply line_entry_Some in Hl as [_ Hk].
Qed.

(** C6, amended.  Every key of a snapshot, of either parser, has no equals
    sign.  A key can be empty: a line that starts with an equals sign, as
    the last line read, leaves the empty key with the rest of the line as
    its value. *)
Theorem snapshot_keys (d : Dialect) (out : string) (key : string) :
  is_Some (snapshot d out !! key) ->
  contains_byte key equals_sign = false /\
  forall lines value,
    parse_lines (lines ++ [String equals_sign value]) !! "" = Some value.
Proof.
  intros H. split.
  - destruct d; by apply parse_lines_key_no_equals in H.
  - intros lines value. unfold parse_lines.
    apply parse_fold_last; [|constructor].
    apply line_entry_Some. split; reflexivity.
Qed.

Lemma snapshot_keys_witness :
  contains_byte "PATH" equals_sign = false /\
  forall lines value,
    parse_lines (lines ++ [String equals_sign value]) !! "" = Some value.
Proof.
  apply (snapshot_keys batch "PATH=/bin" "PATH").
  vm_compute. eauto.
Defined.

(** C6 as stated fails: from the single line [=VALUE] both parsers build a
    snapshot whose only key is the empty string. *)
Lemma snapshot_empty_key :
  parse_split "=VALUE" !! "" = Some "VALUE" /\
  parse_scan "=VALUE" !! "" = Some "VALUE".
Proof. vm_compute. auto. Qed.

(** ** ExecuteCommands *)

Lemma build_command_Some command dir :
  exists name args,
    strings_Split command space = name :: args /\
    build_command command dir =
    Some {| Path := name; Args := name :: args; Dir := dir;
            Stdout := Inherited; Stderr := Inherited |}.
Proof.
  unfold build_command. pose proof (Split_not_nil space command) as Hnil.
  destruct (strings_Split command space) as [|name args]; [contradiction|].
  exists name, args. split; [reflexivity|].
  destruct args; reflexivity.
Qed.

Lemma build_command_Args command dir cmd :
  build_command command dir = Some cmd ->
  Args cmd = strings_Split command space.
Proof.
  destruct (build_command_Some command dir) as (name & args & Hs & ->).
  intros [= <-]. by rewrite Hs.
Qed.

(** Different command strings give different commands. *)
Lemma build_command_inj c1 c2 dir cmd :
  build_command c1 dir = Some cmd -> build_command c2 dir = Some cmd ->
  c1 = c2.
Proof.
  intros H1 H2. apply build_command_Args in H1, H2.
  rewrite <- (Join_Split space c1), <- (Join_Split space c2).
  congruence.
Qed.

Section RunnerFacts.

Context {World : Type}.
Variable spawn :
  Cmd -> gmap string string -> World -> World * string * option error.
Variable dir : string.

Lemma ExecuteCommands_loop_eq commands p :
  ExecuteCommands spawn commands dir p =
  ExecuteCommands_loop spawn commands dir p.
Proof. by destruct commands. Qed.

Lemma run_all_app p pre p1 post p2 :
  run_all spawn dir p pre p1 -> run_all spawn dir p1 post p2 ->
  run_all spawn dir p (pre ++ post) p2.
Proof.
  induction 1 as [|p c cmd p1 out rest p1' Hb Hr _ IH]; intros Hpost;
    [done|].
  simpl. econstructor; eauto.
Qed.

(** The commands a run has added to the history. *)
Lemma run_all_history p commands p' :
  run_all spawn dir p commands p' ->
  exists cmds,
    Forall2 (fun c cmd => build_command c dir = Some cmd) commands cmds /\
    history p' = (history p ++ cmds)%list.
Proof.
  induction 1 as [p|p c cmd p1 out rest p2 Hb Hr _ (cmds & Hall & Hh)].
  - exists []. split; [constructor|]. by rewrite app_nil_r.
  - exists (cmd :: cmds). split; [by constructor|].
    pose proof (Cmd_Run_history spawn cmd p) as H1.
    rewrite Hr in H1. simpl in H1.
    by rewrite Hh, H1, <- app_assoc.
Qed.

Lemma run_all_deterministic p commands p1 p2 :
  run_all spawn dir p commands p1 -> run_all spawn dir p commands p2 ->
  p1 = p2.
Proof.
  intros H1. revert p2.
  induction H1 as [p|p c cmd p1 out rest p1' Hb Hr _ IH]; intros p2 H2;
    inversion H2; subst; [done|].
  apply IH. congruence.
Qed.

(** The loop, by cases of what it returns. *)
Lemma ExecuteCommands_loop_spec commands p :
  match ExecuteCommands_loop spawn commands dir p with
  | (p', Returned None) => run_all spawn dir p commands p'
  | (p', Returned (Some e)) =>
      exists pre command post cmd p1 out,
        commands = (pre ++ command :: post)%list /\
        run_all spawn dir p pre p1 /\
        build_command command dir = Some cmd /\
        Cmd_Run spawn cmd p1 = (p', out, Some e)
  | (_, Panicked) => False
  end.
Proof.
  revert p. induction commands as [|c rest IH]; intros p; simpl.
  - constructor.
  - destruct (build_command_Some c dir) as (name & args & _ & Hb).
    rewrite Hb.
    destruct (Cmd_Run spawn _ p) as [[p1 out] [e|]] eqn:Hr.
    + exists [], c, rest. eexists _, p, out.
      repeat split; [constructor|done..].
    + specialize (IH p1).
      destruct (ExecuteCommands_loop spawn rest dir p1) as [p' [[e|]|]];
        [|by econstructor|done].
      destruct IH as (pre & c' & post & cmd & p2 & out' & -> & Hpre & Hc & Hrun).
      exists (c :: pre), c', post, cmd, p2, out'.
      repeat split; [|done..]. by econstructor.
Qed.

(** A run of a whole list is what the loop does when it returns nil. *)
Lemma run_all_loop p commands p' :
  run_all spawn dir p commands p' ->
  ExecuteCommands_loop spawn commands dir p = (p', Returned None).
Proof.
  induction 1 as [|p c cmd p1 out rest p2 Hb Hr _ IH]; simpl; [done|].
  by rewrite Hb, Hr.
Qed.

(** A run of a prefix followed by a failing command is where the loop
    stops. *)
Lemma run_all_loop_failure p pre p1 command cmd p' out e post :
  run_all spawn dir p pre p1 ->
  build_command command dir = Some cmd ->
  Cmd_Run spawn cmd p1 = (p', out, Some e) ->
  ExecuteCommands_loop spawn (pre ++ command :: post) dir p =
  (p', Returned (Some e)).
Proof.
  intros Hpre Hb Hr.
  induction Hpre as [|p c cmd0 p0 out0 rest p2 Hb0 Hr0 _ IH]; simpl.
  - by rewrite Hb, Hr.
  - rewrite Hb0, Hr0. by apply IH.
Qed.

End RunnerFacts.

Lemma built_count_occ dir commands cmds command cmd :
  Forall2 (fun c x => build_command c dir = Some x) commands cmds ->
  build_command command dir = Some cmd ->
  count_occ Cmd_eq_dec cmds cmd = count_occ string_dec commands command.
Proof.
  intros Hall Hb. induction Hall as [|c x cs xs Hc _ IH]; [reflexivity|].
  destruct (decide (c = command)) as [->|Hne].
  - assert (x = cmd) as -> by congruence.
    by rewrite !count_occ_cons_eq, IH.
  - rewrite !count_occ_cons_neq, IH; [done|done|].
    intros ->. apply Hne. by eapply build_command_inj.
Qed.

Lemma run_all_app_inv {World : Type}
    (spawn : Cmd -> gmap string string -> World -> World * string * option error)
    dir p pre post p2 :
  run_all spawn dir p (pre ++ post) p2 ->
  exists p1, run_all spawn dir p pre p1 /\ run_all spawn dir p1 post p2.
Proof.
  revert p. induction pre as [|c pre IH]; intros p; simpl.
  - intros H. exists p. split; [constructor|done].
  - inversion 1 as [|? ? cmd p1 out ? ? Hb Hr Hrest]; subst.
    destruct (IH _ Hrest) as (p1' & Hpre & Hpost).
    exists p1'. split; [by econstructor|done].
Qed.

Lemma only_spaces_Split command :
  only_spaces command = true ->
  exists args, strings_Split command space = "" :: args.
Proof.
  destruct command as [|c s]; simpl; [by exists []|].
  destruct (Ascii.eqb_spec c space) as [->|]; [|discriminate].
  intros _. rewrite Split_sep. eauto.
Qed.

(** The runs behind a run of a whole list: one [Cmd.Run] for each
    element, of the command built from it, in the order of the list. *)
Lemma run_all_each {World : Type}
    (spawn : Cmd -> gmap string string -> World -> World * string * option error)
    dir p commands p' :
  run_all spawn dir p commands p' ->
  exists cmds,
    Forall2 (fun c cmd => build_command c dir = Some cmd) commands cmds /\
    run_each spawn p cmds p' /\
    history p' = (history p ++ cmds)%list.
Proof.
  induction 1 as [p|p c cmd p1 out rest p2 Hb Hr _ (cmds & Hall & Hruns & Hh)].
  - exists []. repeat split; [constructor..|]. by rewrite app_nil_r.
  - exists (cmd :: cmds). split; [by constructor|]. split.
    + by econstructor.
    + pose proof (Cmd_Run_history spawn cmd p) as H1.
      rewrite Hr in H1. simpl in H1.
      by rewrite Hh, H1, <- app_assoc.
Qed.

(** C7.  When ExecuteCommands returns nil, it has run the list as given:
    for each element of the list, in the order of the list, the command
    built from it was run by [Cmd.Run], and these are all the runs.  So a
    command string that occurs k times in the list was run k times: there
    is no step that removes duplicates. *)
Theorem ExecuteCommands_no_dedup {World : Type}
    (spawn : Cmd -> gmap string string -> World -> World * string * option error)
    (commands : list string) (dir : string) (p p' : Process World) :
  ExecuteCommands spawn commands dir p = (p', Returned None) ->
  run_all spawn dir p commands p' /\
  exists cmds,
    Forall2 (fun c cmd => build_command c dir = Some cmd) commands cmds /\
    run_each spawn p cmds p' /\
    history p' = (history p ++ cmds)%list /\
    forall command cmd, build_command command dir = Some cmd ->
      count_occ Cmd_eq_dec cmds cmd = count_occ string_dec commands command.
Proof.
  rewrite ExecuteCommands_loop_eq. intros H.
  pose proof (ExecuteCommands_loop_spec spawn dir commands p) as Hspec.
  rewrite H in Hspec. split; [exact Hspec|].
  destruct (run_all_each _ _ _ _ _ Hspec) as (cmds & Hall & Hruns & Hh).
  exists cmds. split; [done|]. split; [done|]. split; [done|].
  intros command cmd Hb. by eapply built_count_occ.
Qed.

Lemma ExecuteCommands_no_dedup_witness :
  run_all demo_spawn "/srv" (demo_process "")
    ["make"; "make"; "make install"]
    (ExecuteCommands demo_spawn ["make"; "make"; "make install"]
       "/srv" (demo_process "")).1 /\
  exists cmds,
    Forall2 (fun c cmd => build_command c "/srv" = Some cmd)
            ["make"; "make"; "make install"] cmds /\
    run_each demo_spawn (demo_process "") cmds
      (ExecuteCommands demo_spawn ["make"; "make"; "make install"]
         "/srv" (demo_process "")).1 /\
    history (ExecuteCommands demo_spawn ["make"; "make"; "make install"]
               "/srv" (demo_process "")).1 = ([] ++ cmds)%list /\
    forall command cmd, build_command command "/srv" = Some cmd ->
      count_occ Cmd_eq_dec cmds cmd =
      count_occ string_dec ["make"; "make"; "make install"] command.
Proof.
  apply (ExecuteCommands_no_dedup demo_spawn ["make"; "make"; "make install"]
           "/srv" (demo_process "")).
  reflexivity.
Defined.

(** C8.  ExecuteCommands runs the commands in the order of the list.  When
    it returns nil, every command of the list was run and returned nil.
    When it returns an error, the list is a prefix whose commands all
    returned nil, then the command whose run returned that very error,
    then the rest; the history ends with the failing command, so nothing
    of the rest was run.  It never panics.  And when every command of the
    list succeeds, it returns nil. *)
Theorem ExecuteCommands_stops_at_first_failure {World : Type}
    (spawn : Cmd -> gmap string string -> World -> World * string * option error)
    (commands : list string) (dir : string) (p : Process World) :
  match ExecuteCommands spawn commands dir p with
  | (p', Returned None) => run_all spawn dir p commands p'
  | (p', Returned (Some e)) =>
      exists pre command post cmd p1 out cmds,
        commands = (pre ++ command :: post)%list /\
        run_all spawn dir p pre p1 /\
        build_command command dir = Some cmd /\
        Cmd_Run spawn cmd p1 = (p', out, Some e) /\
        Forall2 (fun c x => build_command c dir = Some x) pre cmds /\
        history p' = (history p ++ cmds ++ [cmd])%list
  | (_, Panicked) => False
  end /\
  forall p', run_all spawn dir p commands p' ->
    ExecuteCommands spawn commands dir p = (p', Returned None).
Proof.
  rewrite ExecuteCommands_loop_eq. split; [|apply run_all_loop].
  pose proof (ExecuteCommands_loop_spec spawn dir commands p) as Hspec.
  destruct (ExecuteCommands_loop spawn commands dir p) as [p' [[e|]|]];
    [|done..].
  destruct Hspec as (pre & c & post & cmd & p1 & out & -> & Hpre & Hb & Hr).
  destruct (run_all_history _ _ _ _ _ Hpre) as (cmds & Hall & Hh).
  exists pre, c, post, cmd, p1, out, cmds. repeat split; [done..|].
  pose proof (Cmd_Run_history spawn cmd p1) as H1.
  rewrite Hr in H1. simpl in H1. by rewrite H1, Hh, <- app_assoc.
Qed.

(** The example of the specification: of "true", "false", "true" the first
    two are run, the error is the one of "false", the third is not run. *)
Example ExecuteCommands_true_false_true :
  ExecuteCommands demo_spawn ["true"; "false"; "true"] "" (demo_process "")
  = (mkProcess (environ (demo_process "")) ""
       [mkCmd "true" ["true"] "" Inherited Inherited;
        mkCmd "false" ["false"] "" Inherited Inherited],
     Returned (Some "exit status 1")).
Proof. reflexivity. Qed.

(** C9, amended.  ExecuteCommands cuts a command string at every single
    space and nowhere else: the first piece is the executable name, the
    other pieces are the arguments, as they are.  No piece has a space,
    the pieces joined by single spaces are the command string again, and
    there are as many arguments as the string has spaces. *)
Theorem build_command_split (command dir : string) :
  exists name args,
    strings_Split command space = name :: args /\
    build_command command dir =
      Some {| Path := name; Args := name :: args; Dir := dir;
              Stdout := Inherited; Stderr := Inherited |} /\
    Forall (fun part => contains_byte part space = false) (name :: args) /\
    strings_Join (name :: args) space = command /\
    length args = strings_Count command space.
Proof.
  destruct (build_command_Some command dir) as (name & args & Hs & Hb).
  exists name, args. repeat split; [done..| | |].
  - rewrite <- Hs. apply Split_no_sep.
  - rewrite <- Hs. apply Join_Split.
  - pose proof (Split_length space command) as Hl.
    rewrite Hs in Hl. simpl in Hl. lia.
Qed.

(** C9 as stated fails: a run of two spaces gives an empty argument, and a
    tab does not separate at all. *)
Lemma build_command_not_fields :
  build_command "ls  -l" "" =
    Some (mkCmd "ls" ["ls"; ""; "-l"] "" Inherited Inherited) /\
  build_command ("ls" +:+ String tab "-l") "" =
    Some (mkCmd ("ls" +:+ String tab "-l") ["ls" +:+ String tab "-l"] ""
            Inherited Inherited) /\
  build_command "ls -l" "" =
    Some (mkCmd "ls" ["ls"; "-l"] "" Inherited Inherited) /\
  build_command "ls  -l" "" <> build_command "ls -l" "" /\
  build_command ("ls" +:+ String tab "-l") "" <> build_command "ls -l" "".
Proof. repeat split; discriminate. Qed.

(** C10.  A command string of spaces only (the empty string is one) is
    built into a command with the empty executable name, and the call
    does not panic.  Wherever such a string is in the list, ExecuteCommands
    returns an error; when the commands before it succeed, the error is
    the one of the empty name, no child is started for it, and no command
    after it is run. *)
Theorem ExecuteCommands_blank_command {World : Type}
    (spawn : Cmd -> gmap string string -> World -> World * string * option error)
    (pre : list string) (command : string) (post : list string)
    (dir : string) (p : Process World) :
  only_spaces command = true ->
  exists cmd,
    build_command command dir = Some cmd /\
    Path cmd = "" /\
    (ExecuteCommands spawn (pre ++ command :: post) dir p).2 <> Panicked /\
    (exists e, (ExecuteCommands spawn (pre ++ command :: post) dir p).2
               = Returned (Some e)) /\
    forall p1, run_all spawn dir p pre p1 ->
      ExecuteCommands spawn (pre ++ command :: post) dir p =
      (mkProcess (environ p1) (world p1) (history p1 ++ [cmd]),
       Returned (Some "exec: no command")).
Proof.
  intros Hsp. destruct (only_spaces_Split _ Hsp) as [args Hs].
  destruct (build_command_Some command dir) as (name & args' & Hs' & Hb).
  rewrite Hs in Hs'. injection Hs' as <- <-.
  eexists. split; [exact Hb|]. split; [reflexivity|].
  assert (Hrun : forall p1, Cmd_Run spawn
            {| Path := ""; Args := "" :: args; Dir := dir;
               Stdout := Inherited; Stderr := Inherited |} p1 =
            (mkProcess (environ p1) (world p1)
               (history p1 ++ [ {| Path := ""; Args := "" :: args; Dir := dir;
                                   Stdout := Inherited; Stderr := Inherited |} ]),
             "", Some "exec: no command")) by reflexivity.
  assert (Herr : exists e,
            (ExecuteCommands spawn (pre ++ command :: post) dir p).2
            = Returned (Some e)).
  { rewrite ExecuteCommands_loop_eq.
    pose proof (ExecuteCommands_loop_spec spawn dir (pre ++ command :: post) p)
      as Hspec.
    destruct (ExecuteCommands_loop spawn (pre ++ command :: post) dir p)
      as [p' [[e|]|]]; [by eauto| |done].
    apply run_all_app_inv in Hspec as (p1 & _ & Hc).
    inversion Hc as [|? ? cmd p2 out ? ? Hb' Hr Hrest]; subst.
    rewrite Hb in Hb'. injection Hb' as <-. rewrite Hrun in Hr.
    discriminate. }
  split; [|split; [exact Herr|]].
  - destruct Herr as [e ->]. discriminate.
  - intros p1 Hpre. rewrite ExecuteCommands_loop_eq.
    by eapply run_all_loop_failure.
Qed.

Lemma ExecuteCommands_blank_command_witness :
  exists cmd,
    build_command "  " "/srv" = Some cmd /\
    Path cmd = "" /\
    (ExecuteCommands demo_spawn (["true"] ++ "  " :: ["true"]) "/srv"
       (demo_process "")).2 <> Panicked /\
    (exists e, (ExecuteCommands demo_spawn (["true"] ++ "  " :: ["true"]) "/srv"
                  (demo_process "")).2 = Returned (Some e)) /\
    forall p1, run_all demo_spawn "/srv" (demo_process "") ["true"] p1 ->
      ExecuteCommands demo_spawn (["true"] ++ "  " :: ["true"]) "/srv"
        (demo_process "") =
      (mkProcess (environ p1) (world p1) (history p1 ++ [cmd]),
       Returned (Some "exec: no command")).
Proof.
  apply (ExecuteCommands_blank_command demo_spawn ["true"] "  " ["true"]
           "/srv" (demo_process "")).
  reflexivity.
Defined.

(** * Further properties *)

(** ** Sourcing: the environment after a call, as a whole *)









(** ** The line scanner: where it stops *)

Section ScanStops.

Variable maxTokenSize : N.
Hypothesis maxTokenSize_pos : (0 < maxTokenSize)%N.

Local Abbreviation short := (shorter_than maxTokenSize).

Lemma held_text_snoc_no_newline c held :
  c <> newline ->
  contains_byte (held_text held) newline = false ->
  contains_byte (held_text (c :: held)) newline = false.
Proof.
  intros Hne Hheld. rewrite held_text_cons, contains_byte_app, Hheld. simpl.
  by destruct (Ascii.eqb_spec c newline).
Qed.

(** A scan without error has met short lines only. *)
Lemma scan_lines_None_short data held n tokens :
  n = N.of_nat (length held) -> (n < maxTokenSize)%N ->
  contains_byte (held_text held) newline = false ->
  scan_lines maxTokenSize data held n = (tokens, None) ->
  Forall short (strings_Split (held_text held +:+ data) newline).
Proof.
  revert held n tokens.
  induction data as [|c rest IH]; intros held n tokens Hn Hlt Hheld; simpl.
  - intros _. rewrite string_app_nil_r, Split_whole by done.
    constructor; [|constructor]. unfold shorter_than.
    rewrite held_text_length. lia.
  - destruct (Ascii.eqb_spec c newline) as [->|Hne].
    + destruct (scan_lines maxTokenSize rest [] 0) as [tokens' err] eqn:E.
      intros [= <- ->]. rewrite Split_app by done. constructor.
      * unfold shorter_than. rewrite held_text_length. lia.
      * by apply (IH [] 0%N tokens').
    + destruct (N.leb_spec maxTokenSize (n + 1)) as [Hge|Hlt'];
        [discriminate|].
      intros Hscan. apply IH in Hscan.
      * by rewrite held_text_cons, string_app_assoc in Hscan.
      * simpl. lia.
      * done.
      * by apply held_text_snoc_no_newline.
Qed.

(** A scan that ends with an error has yielded the lines before the
    first line that is not short, and nothing else. *)
Lemma scan_lines_Some_first_long data held n tokens e :
  n = N.of_nat (length held) -> (n < maxTokenSize)%N ->
  contains_byte (held_text held) newline = false ->
  scan_lines maxTokenSize data held n = (tokens, Some e) ->
  exists pre long post,
    strings_Split (held_text held +:+ data) newline
    = (pre ++ long :: post)%list /\
    Forall short pre /\ ~ short long /\ tokens = dropCR <$> pre.
Proof.
  revert held n tokens.
  induction data as [|c rest IH]; intros held n tokens Hn Hlt Hheld; simpl;
    [discriminate|].
  destruct (Ascii.eqb_spec c newline) as [->|Hne].
  - destruct (scan_lines maxTokenSize rest [] 0) as [tokens' err] eqn:E.
    intros [= <- ->].
    destruct (IH [] 0%N tokens' eq_refl maxTokenSize_pos eq_refl E)
      as (pre & long & post & Hs & Hpre & Hlong & ->).
    exists (held_text held :: pre), long, post.
    rewrite Split_app by done. change (held_text [] +:+ rest) with rest in Hs.
    rewrite Hs. repeat split; [|done|].
    + constructor; [|done]. unfold shorter_than. rewrite held_text_length. lia.
    + simpl. by rewrite line_token_dropCR.
  - destruct (N.leb_spec maxTokenSize (n + 1)) as [Hge|Hlt'].
    + intros [= <-].
      rewrite Split_prepend, Split_other by done.
      pose proof (Split_not_nil newline rest) as Hnil.
      destruct (strings_Split rest newline) as [|first others]; [done|].
      exists [], (held_text held +:+ String c first), others.
      repeat split; [constructor|].
      unfold shorter_than. rewrite string_app_length, held_text_length. simpl. lia.
    + intros Hscan. apply IH in Hscan as (pre & long & post & Hs & Hrest).
      * exists pre, long, post.
        by rewrite held_text_cons, string_app_assoc in Hs.
      * simpl. lia.
      * done.
      * by apply held_text_snoc_no_newline.
Qed.

End ScanStops.

(** X5.  The scan loop of ShellSourceBatch and ShellSourcePowerShell reads
    the dump to its end exactly when every line of the dump is shorter than
    65536 bytes. *)
Theorem bufio_scan_whole_iff_short (out : string) :
  (bufio_scan out).2 = None <->
  Forall short_line (strings_Split out newline).
Proof.
  split; [|apply bufio_scan_ok].
  unfold bufio_scan.
  destruct (scan_lines MaxScanTokenSize out [] 0) as [tokens err] eqn:E.
  simpl. intros ->.
  by apply (scan_lines_None_short MaxScanTokenSize eq_refl out [] 0%N tokens).
Qed.

(** X6.  When the scanner stops with an error, the snapshot of
    ShellSourceBatch and ShellSourcePowerShell is the one of the lines
    before the first line of 65536 bytes or more: that line and all lines
    after it are left out. *)
Theorem parse_scan_truncated (out : string) (e : scan_error) :
  (bufio_scan out).2 = Some e ->
  exists pre long post,
    strings_Split out newline = (pre ++ long :: post)%list /\
    Forall short_line pre /\ ~ short_line long /\
    parse_scan out = parse_lines (dropCR <$> pre).
Proof.
  unfold parse_scan, bufio_scan.
  destruct (scan_lines MaxScanTokenSize out [] 0) as [tokens err] eqn:E.
  simpl. intros ->.
  destruct (scan_lines_Some_first_long MaxScanTokenSize eq_refl out [] 0%N
              tokens e eq_refl eq_refl eq_refl E)
    as (pre & long & post & Hs & Hpre & Hlong & ->).
  by exists pre, long, post.
Qed.

Lemma parse_scan_truncated_witness :
  exists pre long post,
    strings_Split overlong_dump newline = (pre ++ long :: post)%list /\
    Forall short_line pre /\ ~ short_line long /\
    parse_scan overlong_dump = parse_lines (dropCR <$> pre).
Proof.
  apply (parse_scan_truncated overlong_dump ErrTooLong).
  vm_compute. reflexivity.
Defined.

(** ** Parsing: a dump and its snapshot *)

Lemma env_line_no_newline entry :
  dump_entry_ok entry -> contains_byte (env_line entry) newline = false.
Proof.
  intros (_ & Hk & Hv). unfold env_line.
  rewrite contains_byte_app, Hk. simpl. by rewrite Hv.
Qed.

Lemma env_line_entry entry :
  dump_entry_ok entry -> line_entry (env_line entry) = Some entry.
Proof.
  intros (Hk & _ & _). destruct entry as [k v].
  by apply line_entry_Some.
Qed.

Lemma env_dump_Split entries :
  Forall dump_entry_ok entries ->
  strings_Split (env_dump entries) newline
  = ((env_line <$> entries) ++ [""])%list.
Proof.
  induction 1 as [|entry rest Hok _ IH]; [reflexivity|].
  cbn [env_dump]. rewrite Split_app by by apply env_line_no_newline.
  by rewrite IH.
Qed.

Lemma parse_fold_env_lines entries env :
  Forall dump_entry_ok entries ->
  fold_left parse_line (env_line <$> entries) env
  = list_to_map (reverse entries) ∪ env.
Proof.
  intros Hall. revert env.
  induction Hall as [|[k v] rest Hok _ IH]; intros env.
  - simpl. by rewrite (left_id_L ∅ (∪)).
  - cbn [fmap list_fmap fold_left]. rewrite IH, parse_line_entry.
    rewrite (env_line_entry (k, v)) by done.
    rewrite reverse_cons, list_to_map_app. simpl.
    rewrite insert_empty, <- (assoc_L (∪)).
    by rewrite <- insert_union_singleton_l.
Qed.

(** X7.  Parsing inverts dumping, on the path of ShellSourceUnix: the
    snapshot of the dump of a sequence of variables (names without equals
    sign, no newline in names or values) has exactly those variables, each
    with the value of its last line.  Values may have equals signs. *)
Theorem parse_split_env_dump (entries : list (string * string)) :
  Forall dump_entry_ok entries ->
  parse_split (env_dump entries) = list_to_map (reverse entries).
Proof.
  intros Hall. unfold parse_split, parse_lines.
  rewrite env_dump_Split, parse_fold_app, parse_fold_env_lines by done.
  simpl. rewrite parse_line_skip by done.
  by rewrite (right_id_L ∅ (∪)).
Qed.

Lemma parse_split_env_dump_witness :
  parse_split (env_dump [("A", "1"); ("OPTS", "-x=1 -y=2"); ("A", "")])
  = list_to_map (reverse [("A", "1"); ("OPTS", "-x=1 -y=2"); ("A", "")]).
Proof.
  apply (parse_split_env_dump [("A", "1"); ("OPTS", "-x=1 -y=2"); ("A", "")]).
  repeat constructor.
Defined.



(** ** Parsing: the two line readers side by side *)

Lemma dropCR_id line :
  contains_byte line carriage_return = false -> dropCR line = line.
Proof.
  induction line as [|c rest IH]; [done|]. cbn [contains_byte].
  destruct (Ascii.eqb_spec c carriage_return) as [|Hne]; [discriminate|].
  intros H. cbn [dropCR]. destruct rest as [|c' rest'].
  - by destruct (Ascii.eqb_spec c carriage_return).
  - by rewrite (IH H).
Qed.

Lemma dropCR_no_byte line c :
  contains_byte line c = false -> contains_byte (dropCR line) c = false.
Proof.
  induction line as [|c0 rest IH]; [done|]. cbn [contains_byte].
  intros H. apply orb_false_iff in H as [Hc0 Hrest].
  cbn [dropCR]. destruct rest as [|c' rest'].
  - destruct (Ascii.eqb c0 carriage_return); [done|].
    simpl. by rewrite Hc0.
  - cbn [contains_byte]. rewrite Hc0. by apply IH.
Qed.

Lemma Split_parts_no_byte sep s c :
  contains_byte s c = false ->
  Forall (fun part => contains_byte part c = false) (strings_Split s sep).
Proof.
  induction s as [|c0 s IH]; [by repeat constructor|].
  cbn [contains_byte]. intros H. apply orb_false_iff in H as [Hc0 Hs].
  destruct (Ascii.eqb_spec c0 sep) as [->|Hne].
  - rewrite Split_sep. constructor; [done|by apply IH].
  - rewrite Split_other by done. specialize (IH Hs).
    destruct (strings_Split s sep) as [|first rest]; [constructor|].
    inversion IH; subst. constructor; [|done].
    cbn [contains_byte]. by rewrite Hc0.
Qed.

Lemma text_lines_cases text :
  text_lines text = strings_Split text newline \/
  strings_Split text newline = (text_lines text ++ [""])%list.
Proof.
  unfold text_lines.
  destruct (last (strings_Split text newline)) as [[|c s]|] eqn:E; auto.
  apply last_Some in E as [l' ->]. right. by rewrite removelast_last.
Qed.

Lemma text_lines_In text line :
  In line (text_lines text) -> In line (strings_Split text newline).
Proof.
  destruct (text_lines_cases text) as [->| ->]; [done|].
  intros H. apply in_or_app. by left.
Qed.

(** The lines the parsing loop sees after a scan without error differ
    from those of [strings.Split] by the carriage returns and by the
    empty piece after a last newline, which the loop skips. *)
Lemma parse_scan_lines out :
  (bufio_scan out).2 = None ->
  parse_scan out = parse_lines (dropCR <$> strings_Split out newline).
Proof.
  intros Hok. unfold parse_scan. rewrite bufio_scan_complete by done.
  destruct (text_lines_cases out) as [->| ->]; [done|].
  unfold parse_lines. rewrite fmap_app, parse_fold_app. simpl.
  by rewrite parse_line_skip.
Qed.

(** Every token of the scanner is a line of the text, without its
    trailing carriage return. *)
Lemma bufio_scan_tokens out token :
  In token (bufio_scan out).1 ->
  exists line, In line (strings_Split out newline) /\ token = dropCR line.
Proof.
  destruct (bufio_scan out).2 as [e|] eqn:E.
  - unfold bufio_scan in *.
    destruct (scan_lines MaxScanTokenSize out [] 0) as [tokens err] eqn:Es.
    simpl in *. subst err.
    destruct (scan_lines_Some_first_long MaxScanTokenSize eq_refl out [] 0%N
                tokens e eq_refl eq_refl eq_refl Es)
      as (pre & long & post & Hs & _ & _ & ->).
    change (held_text [] +:+ out) with out in Hs. rewrite Hs.
    intros H. apply in_map_iff in H as (line & <- & Hin).
    exists line. split; [|done]. apply in_or_app. by left.
  - rewrite bufio_scan_complete by done.
    intros H. apply in_map_iff in H as (line & <- & Hin).
    exists line. split; [|done]. by apply text_lines_In.
Qed.

(** X9.  On a dump whose lines are all shorter than 65536 bytes, the
    scanner-based functions give a key the value of the last line that
    defines it, the lines being taken without their trailing carriage
    return. *)
Theorem parse_scan_short_last_wins (out : string) (pre : list string)
    (line : string) (post : list string) (key value : string) :
  Forall short_line (strings_Split out newline) ->
  dropCR <$> strings_Split out newline = (pre ++ line :: post)%list ->
  line_entry line = Some (key, value) ->
  Forall (fun l => forall v, line_entry l <> Some (key, v)) post ->
  parse_scan out !! key = Some value.
Proof.
  intros Hshort Hlines Hline Hpost.
  rewrite parse_scan_lines by by apply bufio_scan_ok.
  unfold parse_lines. rewrite Hlines. by apply parse_fold_last.
Qed.

Lemma parse_scan_short_last_wins_witness :
  parse_scan ("K=1" +:+ String carriage_return (String newline
                ("K=2" +:+ String carriage_return (String newline ""))))
    !! "K" = Some "2".
Proof.
  apply (parse_scan_short_last_wins _ ["K=1"] "K=2" [""] "K" "2").
  - repeat constructor.
  - reflexivity.
  - reflexivity.
  - repeat constructor. discriminate.
Defined.

(** X10.  The three functions agree on ordinary dumps: for a text
    without carriage return whose lines are all shorter than 65536 bytes,
    the snapshot of the scanner-based functions is the snapshot of
    ShellSourceUnix. *)
Theorem parse_scan_eq_parse_split (out : string) :
  Forall short_line (strings_Split out newline) ->
  contains_byte out carriage_return = false ->
  parse_scan out = parse_split out.
Proof.
  intros Hshort Hcr. rewrite parse_scan_lines by by apply bufio_scan_ok.
  unfold parse_split. f_equal.
  assert (Hid : forall lines,
            Forall (fun l => contains_byte l carriage_return = false) lines ->
            dropCR <$> lines = lines).
  { induction 1 as [|part parts Hpart _ IH]; [done|].
    cbn [fmap list_fmap]. by rewrite dropCR_id, IH. }
  by apply Hid, Split_parts_no_byte.
Qed.

Lemma parse_scan_eq_parse_split_witness :
  parse_scan (env_dump [("A", "1"); ("B", "x=y")])
  = parse_split (env_dump [("A", "1"); ("B", "x=y")]).
Proof.
  apply (parse_scan_eq_parse_split (env_dump [("A", "1"); ("B", "x=y")])).
  - repeat constructor.
  - reflexivity.
Defined.

(** X11.  No name and no value of a snapshot has a newline byte, whatever
    the text and whichever of the three functions parses it. *)
Theorem snapshot_no_newline (d : Dialect) (out key value : string) :
  snapshot d out !! key = Some value ->
  contains_byte key newline = false /\ contains_byte value newline = false.
Proof.
  intros H.
  assert (exists line, contains_byte line newline = false /\
                       line_entry line = Some (key, value))
    as (line & Hnl & Hentry).
  { pose proof (Split_no_sep newline out) as Hparts.
    rewrite List.Forall_forall in Hparts.
    destruct d; apply parse_fold_origin in H as [[H _]|(l & Hin & Hl)];
      try (by rewrite lookup_empty in H).
    - exists l. split; [by apply Hparts|done].
    - apply bufio_scan_tokens in Hin as (l0 & Hin & ->).
      exists (dropCR l0). split; [|done].
      apply dropCR_no_byte. by apply Hparts.
    - apply bufio_scan_tokens in Hin as (l0 & Hin & ->).
      exists (dropCR l0). split; [|done].
      apply dropCR_no_byte. by apply Hparts. }
  apply line_entry_Some in Hentry as [-> _].
  rewrite contains_byte_app in Hnl. apply orb_false_iff in Hnl as [Hk Hv].
  split; [done|]. exact Hv.
Qed.

Lemma snapshot_no_newline_witness :
  contains_byte "A" newline = false /\ contains_byte "1" newline = false.
Proof.
  apply (snapshot_no_newline posix (env_dump [("A", "1")]) "A" "1").
  reflexivity.
Defined.

Lemma env_line_with_CR entry :
  env_line (with_CR entry) = env_line entry +:+ String carriage_return "".
Proof.
  unfold env_line, with_CR. simpl.
  by rewrite string_app_assoc, string_app_cons.
Qed.

Lemma crlf_dump_env_dump entries :
  crlf_dump entries = env_dump (with_CR <$> entries).
Proof.
  induction entries as [|entry rest IH]; [done|].
  cbn [crlf_dump fmap list_fmap env_dump].
  rewrite env_line_with_CR, string_app_assoc, IH. done.
Qed.

Lemma with_CR_ok entry : dump_entry_ok entry -> dump_entry_ok (with_CR entry).
Proof.
  intros (Hk & Hkn & Hv). repeat split; [done..|]. simpl.
  by rewrite contains_byte_app, Hv.
Qed.

(** X12.  A dump with Windows line ends is read differently by the two
    readers: the scanner-based functions (lines shorter than 65536 bytes)
    store every value as it is, while ShellSourceUnix stores every value
    with the carriage return at its end. *)
Theorem crlf_dump_snapshots (entries : list (string * string)) :
  Forall dump_entry_ok entries ->
  Forall short_line (strings_Split (crlf_dump entries) newline) ->
  parse_scan (crlf_dump entries) = list_to_map (reverse entries) /\
  parse_split (crlf_dump entries)
  = list_to_map (reverse (with_CR <$> entries)).
Proof.
  intros Hok Hshort.
  assert (Hok' : Forall dump_entry_ok (with_CR <$> entries)).
  { apply Forall_fmap. eapply Forall_impl; [exact Hok|].
    intros entry. apply with_CR_ok. }
  split.
  - rewrite parse_scan_lines by by apply bufio_scan_ok.
    rewrite crlf_dump_env_dump, env_dump_Split by done.
    unfold parse_lines. rewrite fmap_app, parse_fold_app. simpl.
    rewrite parse_line_skip by done.
    rewrite <- !list_fmap_compose.
    rewrite (list_fmap_ext _ env_line entries).
    + rewrite parse_fold_env_lines by done. by rewrite (right_id_L ∅ (∪)).
    + intros i entry _. simpl.
      rewrite env_line_with_CR, dropCR_snoc.
      by destruct (Ascii.eqb_spec carriage_return carriage_return).
  - rewrite crlf_dump_env_dump. unfold parse_split, parse_lines.
    rewrite env_dump_Split, parse_fold_app, parse_fold_env_lines by done.
    simpl. rewrite parse_line_skip by done.
    by rewrite (right_id_L ∅ (∪)).
Qed.

Lemma crlf_dump_snapshots_witness :
  parse_scan (crlf_dump [("A", "1"); ("B", "2")])
  = list_to_map (reverse [("A", "1"); ("B", "2")]) /\
  parse_split (crlf_dump [("A", "1"); ("B", "2")])
  = list_to_map (reverse (with_CR <$> [("A", "1"); ("B", "2")])).
Proof.
  apply (crlf_dump_snapshots [("A", "1"); ("B", "2")]);
    repeat constructor.
Defined.

(** ** ExecuteCommands, continued *)

Section RunnerMore.

Context {World : Type}.
Variable spawn :
  Cmd -> gmap string string -> World -> World * string * option error.
Variable dir : string.

Lemma build_command_runner command cmd :
  build_command command dir = Some cmd -> runner_command dir cmd.
Proof.
  destruct (build_command_Some command dir) as (name & args & Hs & ->).
  intros [= <-]. do 3 (split; [done|]). split; [by exists args|].
  simpl. rewrite <- Hs. apply Split_no_sep.
Qed.

Lemma loop_invariants commands p :
  environ (ExecuteCommands_loop spawn commands dir p).1 = environ p /\
  exists cmds,
    history (ExecuteCommands_loop spawn commands dir p).1
    = (history p ++ cmds)%list /\
    length cmds <= length commands /\
    Forall (runner_command dir) cmds.
Proof.
  revert p. induction commands as [|c rest IH]; intros p; simpl.
  - split; [done|]. exists []. by rewrite app_nil_r.
  - destruct (build_command c dir) as [cmd|] eqn:Hb.
    + pose proof (Cmd_Run_environ spawn cmd p) as Henv.
      pose proof (Cmd_Run_history spawn cmd p) as Hhist.
      destruct (Cmd_Run spawn cmd p) as [[p1 out] [e|]]; simpl in *.
      * split; [done|]. exists [cmd]. split; [done|]. split; [simpl; lia|].
        constructor; [by eapply build_command_runner|constructor].
      * destruct (IH p1) as (Henv1 & cmds & Hh & Hlen & Hall).
        split; [congruence|]. exists (cmd :: cmds).
        split; [|split; [simpl; lia|]].
        -- by rewrite Hh, Hhist, <- app_assoc.
        -- constructor; [by eapply build_command_runner|done].
    + split; [done|]. exists [].
      split; [by rewrite app_nil_r|]. split; [simpl; lia|constructor].
Qed.

End RunnerMore.

(** X13.  ExecuteCommands never changes the environment of the process,
    whatever the commands do and however the call ends. *)
Theorem ExecuteCommands_environ {World : Type}
    (spawn : Cmd -> gmap string string -> World -> World * string * option error)
    (commands : list string) (dir : string) (p : Process World) :
  environ (ExecuteCommands spawn commands dir p).1 = environ p.
Proof.
  rewrite ExecuteCommands_loop_eq. apply loop_invariants.
Qed.

(** X14.  However the call ends, ExecuteCommands has run at most one
    command for each element of the list, and every command it has run
    has the given working directory, inherits standard output and
    standard error, has its executable name as first element of its
    arguments and has no space in any argument. *)
Theorem ExecuteCommands_commands_run {World : Type}
    (spawn : Cmd -> gmap string string -> World -> World * string * option error)
    (commands : list string) (dir : string) (p : Process World) :
  exists cmds,
    history (ExecuteCommands spawn commands dir p).1
    = (history p ++ cmds)%list /\
    length cmds <= length commands /\
    Forall (runner_command dir) cmds.
Proof.
  rewrite ExecuteCommands_loop_eq. apply loop_invariants.
Qed.

(** X15.  Running a list that is two lists one after the other is running
    the first and, when that returns nil, running the second from where
    the first ended; when the first returns an error, that is the result
    and nothing of the second is run. *)
Theorem ExecuteCommands_app {World : Type}
    (spawn : Cmd -> gmap string string -> World -> World * string * option error)
    (pre post : list string) (dir : string) (p : Process World) :
  ExecuteCommands spawn (pre ++ post) dir p =
  match ExecuteCommands spawn pre dir p with
  | (p1, Returned None) => ExecuteCommands spawn post dir p1
  | result => result
  end.
Proof.
  rewrite !ExecuteCommands_loop_eq. revert p.
  induction pre as [|c pre IH]; intros p; simpl.
  - by rewrite ExecuteCommands_loop_eq.
  - destruct (build_command c dir) as [cmd|]; [|done].
    destruct (Cmd_Run spawn cmd p) as [[p1 out] [e|]]; [done|].
    apply IH.
Qed.

(** ** The interpreter locator *)

(** X16.  FindPython, FindNode and FindPip are one search with different
    candidates: python3 then python, node, pip3 then pip.  Each returns the
    path of the first candidate that LookPath finds without error, with a
    nil error; when no candidate is found it returns the empty path with
    its own error, also when LookPath gave a path along with its error. *)
Theorem Find_first_found {World : Type}
    (exec_LookPath : string -> gmap string string -> World ->
                     string * option error)
    (p : Process World) :
  FindPython exec_LookPath p =
    match first_found exec_LookPath ["python3"; "python"] p with
    | Some path => (path, None)
    | None => ("", Some "python interpreter not found")
    end /\
  FindNode exec_LookPath p =
    match first_found exec_LookPath ["node"] p with
    | Some path => (path, None)
    | None => ("", Some "node.js interpreter not found")
    end /\
  FindPip exec_LookPath p =
    match first_found exec_LookPath ["pip3"; "pip"] p with
    | Some path => (path, None)
    | None => ("", Some "pip command not found")
    end.
Proof.
  unfold FindPython, FindNode, FindPip. simpl.
  repeat split;
    repeat match goal with
           | |- context [exec_LookPath ?name ?env ?w] =>
               destruct (exec_LookPath name env w) as [? [?|]]
           end; reflexivity.
Qed.

Example FindPython_fallback :
  FindPython demo_LookPath (demo_process "") = ("/usr/bin/python", None) /\
  FindPip demo_LookPath (demo_process "") = ("/usr/bin/pip3", None) /\
  FindNode demo_LookPath (demo_process "")
  = ("", Some "node.js interpreter not found").
Proof. repeat split. Qed.

(** ** The platform detector *)

Lemma HasPrefix_spec s prefix :
  strings_HasPrefix s prefix = true <-> exists rest, s = prefix +:+ rest.
Proof.
  revert s. induction prefix as [|c prefix IH]; intros s.
  - split; [|by destruct s]. intros _. by exists s.
  - destruct s as [|d s]; simpl.
    + split; [done|]. by intros [rest ?].
    + rewrite andb_true_iff, IH. split.
      * intros [Hd [rest ->]]. apply Ascii.eqb_eq in Hd as ->. by exists rest.
      * intros [rest H]. rewrite string_app_cons in H.
        injection H as -> ->. split; [apply Ascii.eqb_refl|by exists rest].
Qed.

(** [strings.Contains] holds exactly of the texts that have [substr]
    somewhere inside. *)
Lemma Contains_spec s substr :
  strings_Contains s substr = true <->
  exists before after, s = before +:+ substr +:+ after.
Proof.
  split.
  - induction s as [|c s IH]; cbn [strings_Contains];
      rewrite orb_true_iff; intros [H|H]; try discriminate.
    + apply HasPrefix_spec in H as [rest ->]. by exists "", rest.
    + apply HasPrefix_spec in H as [rest ->]. by exists "", rest.
    + destruct (IH H) as (before & after & ->).
      by exists (String c before), after.
  - intros (before & after & ->).
    induction before as [|c before IH].
    + change ("" +:+ substr +:+ after) with (substr +:+ after).
      assert (H : strings_HasPrefix (substr +:+ after) substr = true)
        by (apply HasPrefix_spec; by exists after).
      destruct (substr +:+ after); cbn [strings_Contains]; by rewrite H.
    + rewrite string_app_cons. cbn [strings_Contains].
      rewrite IH. apply orb_true_r.
Qed.

Lemma lower_bytes_app s1 s2 :
  lower_bytes (s1 +:+ s2) = lower_bytes s1 +:+ lower_bytes s2.
Proof.
  induction s1 as [|c s1 IH]; [done|].
  rewrite string_app_cons. simpl. by rewrite IH, string_app_cons.
Qed.

Lemma lower_bytes_no_upper s : hasUpper s = false -> lower_bytes s = s.
Proof.
  induction s as [|c s IH]; [done|]. simpl.
  intros H. apply orb_false_iff in H as [Hc Hs].
  unfold lower_byte. by rewrite Hc, IH.
Qed.

(** On a text of ASCII bytes, [strings.ToLower] is the byte-wise lower
    case, whatever the Unicode mapping is. *)
Lemma ToLower_ascii unicode_ToLower s :
  isASCII s = true -> strings_ToLower unicode_ToLower s = lower_bytes s.
Proof.
  intros H. unfold strings_ToLower. rewrite H.
  destruct (hasUpper s) eqn:E; simpl; [done|].
  by rewrite lower_bytes_no_upper.
Qed.

Lemma Contains_ToLower_ascii unicode_ToLower out before word after :
  isASCII out = true ->
  out = before +:+ word +:+ after ->
  strings_Contains (strings_ToLower unicode_ToLower out) (lower_bytes word)
  = true.
Proof.
  intros Hascii ->. rewrite ToLower_ascii by done.
  apply Contains_spec.
  exists (lower_bytes before), (lower_bytes after).
  by rewrite !lower_bytes_app.
Qed.

Section DetectorFacts.

Context {World : Type}.
Variable spawn :
  Cmd -> gmap string string -> World -> World * string * option error.
Variable GOOS : string.
Variable os_Getppid : World -> Z.
Variable unicode_ToLower : string -> string.

Lemma Cmd_Output_environ c p :
  environ (Cmd_Output spawn c p).1.1 = environ p.
Proof.
  unfold Cmd_Output. destruct (Stdout c); [|done..].
  apply Cmd_Run_environ.
Qed.

End DetectorFacts.

(** X17.  IsWindows never changes the environment.  On a system that is
    not "windows" it returns false and runs nothing.  On "windows" it runs
    [uname -a] once and returns false exactly when that run succeeds and
    its output, in lower case, has "microsoft" somewhere inside; when the
    run fails it returns true. *)
Theorem IsWindows_spec {World : Type}
    (spawn : Cmd -> gmap string string -> World -> World * string * option error)
    (GOOS : string) (unicode_ToLower : string -> string)
    (p : Process World) :
  environ (IsWindows spawn GOOS unicode_ToLower p).1 = environ p /\
  (GOOS <> "windows" -> IsWindows spawn GOOS unicode_ToLower p = (p, false)) /\
  (GOOS = "windows" ->
   exists p1 out err,
     Cmd_Output spawn uname_command p = (p1, out, err) /\
     (IsWindows spawn GOOS unicode_ToLower p).1 = p1 /\
     ((IsWindows spawn GOOS unicode_ToLower p).2 = false <->
      err = None /\
      exists before after,
        strings_ToLower unicode_ToLower out
        = before +:+ "microsoft" +:+ after)).
Proof.
  unfold IsWindows.
  pose proof (Cmd_Output_environ spawn uname_command p) as Henv.
  destruct (String.eqb_spec GOOS "windows") as [->|Hne].
  - destruct (Cmd_Output spawn uname_command p) as [[p1 out] err].
    simpl in Henv.
    assert (Hc := Contains_spec (strings_ToLower unicode_ToLower out)
                    "microsoft").
    split; [|split; [done|]].
    + destruct err; [exact Henv|].
      by destruct (strings_Contains _ _).
    + intros _. exists p1, out, err. split; [done|].
      destruct err as [e|]; simpl.
      * split; [done|]. split; [done|]. by intros [? _].
      * destruct (strings_Contains _ _) eqn:E; simpl.
        -- split; [done|]. split; [|done]. intros _. split; [done|].
           by apply Hc.
        -- split; [done|]. split; [done|]. intros [_ H].
           apply Hc in H. discriminate.
  - split; [done|]. split; [done|]. intros ?. contradiction.
Qed.

(** X18.  The test of IsWindows does not depend on letter case: on
    "windows", when [uname -a] succeeds with an output of ASCII bytes that
    has, somewhere inside, a word whose lower case is "microsoft", the
    result is false. *)
Theorem IsWindows_any_case {World : Type}
    (spawn : Cmd -> gmap string string -> World -> World * string * option error)
    (unicode_ToLower : string -> string)
    (p p1 : Process World) (out before word after : string) :
  Cmd_Output spawn uname_command p = (p1, out, None) ->
  isASCII out = true ->
  out = before +:+ word +:+ after ->
  lower_bytes word = "microsoft" ->
  IsWindows spawn "windows" unicode_ToLower p = (p1, false).
Proof.
  intros Hrun Hascii Hout Hword. unfold IsWindows. simpl. rewrite Hrun.
  rewrite <- Hword.
  by rewrite (Contains_ToLower_ascii unicode_ToLower out before word after).
Qed.

Lemma IsWindows_any_case_witness :
  IsWindows demo_spawn "windows" (fun s => s)
    (demo_process "Linux box 5.15.90.1-Microsoft-standard-WSL2 x86_64")
  = ((Cmd_Output demo_spawn uname_command
        (demo_process
           "Linux box 5.15.90.1-Microsoft-standard-WSL2 x86_64")).1.1,
     false).
Proof.
  apply (IsWindows_any_case demo_spawn (fun s => s) _ _
           "Linux box 5.15.90.1-Microsoft-standard-WSL2 x86_64"
           "Linux box 5.15.90.1-" "Microsoft" "-standard-WSL2 x86_64");
    reflexivity.
Defined.

(** X19.  IsPowerShell never changes the environment and runs one
    command, the wmic query for the parent's process id.  It returns true
    exactly when that run succeeds and its output, in lower case, has
    "powershell.exe" somewhere inside; when the run fails it returns
    false. *)
Theorem IsPowerShell_spec {World : Type}
    (spawn : Cmd -> gmap string string -> World -> World * string * option error)
    (os_Getppid : World -> Z) (unicode_ToLower : string -> string)
    (p : Process World) :
  environ (IsPowerShell spawn os_Getppid unicode_ToLower p).1 = environ p /\
  exists p1 out err,
    Cmd_Output spawn (wmic_command (os_Getppid (world p))) p = (p1, out, err) /\
    (IsPowerShell spawn os_Getppid unicode_ToLower p).1 = p1 /\
    ((IsPowerShell spawn os_Getppid unicode_ToLower p).2 = true <->
     err = None /\
     exists before after,
       strings_ToLower unicode_ToLower out
       = before +:+ "powershell.exe" +:+ after).
Proof.
  unfold IsPowerShell.
  pose proof (Cmd_Output_environ spawn (wmic_command (os_Getppid (world p))) p)
    as Henv.
  destruct (Cmd_Output spawn (wmic_command (os_Getppid (world p))) p)
    as [[p1 out] err].
  simpl in Henv.
  assert (Hc := Contains_spec (strings_ToLower unicode_ToLower out)
                  "powershell.exe").
  split; [by destruct err|].
  exists p1, out, err. split; [done|].
  destruct err as [e|]; simpl.
  - split; [done|]. split; [done|]. by intros [? _].
  - split; [done|]. rewrite Hc. split; [by intros ?|by intros [_ ?]].
Qed.

(** X20.  The test of IsPowerShell does not depend on letter case either:
    when the wmic query succeeds with an output of ASCII bytes that has,
    somewhere inside, a word whose lower case is "powershell.exe", the
    result is true. *)
Theorem IsPowerShell_any_case {World : Type}
    (spawn : Cmd -> gmap string string -> World -> World * string * option error)
    (os_Getppid : World -> Z) (unicode_ToLower : string -> string)
    (p p1 : Process World) (out before word after : string) :
  Cmd_Output spawn (wmic_command (os_Getppid (world p))) p = (p1, out, None) ->
  isASCII out = true ->
  out = before +:+ word +:+ after ->
  lower_bytes word = "powershell.exe" ->
  IsPowerShell spawn os_Getppid unicode_ToLower p = (p1, true).
Proof.
  intros Hrun Hascii Hout Hword. unfold IsPowerShell. rewrite Hrun.
  rewrite <- Hword.
  by rewrite (Contains_ToLower_ascii unicode_ToLower out before word after).
Qed.

Lemma IsPowerShell_any_case_witness :
  IsPowerShell demo_spawn (fun _ => 4242%Z) (fun s => s)
    (demo_process "CommandLine  C:\Windows\System32\PowerShell.EXE -NoLogo")
  = ((Cmd_Output demo_spawn (wmic_command 4242)
        (demo_process
           "CommandLine  C:\Windows\System32\PowerShell.EXE -NoLogo")).1.1,
     true).
Proof.
  apply (IsPowerShell_any_case demo_spawn (fun _ => 4242%Z) (fun s => s) _ _
           "CommandLine  C:\Windows\System32\PowerShell.EXE -NoLogo"
           "CommandLine  C:\Windows\System32\" "PowerShell.EXE" " -NoLogo");
    reflexivity.
Defined.

(** ** Sourcing: one call after another, and witnesses *)



Lemma setenv_range_order_witness :
  setenv_seq [("B", "2"); ("A", "1")] (<["A" := "0"]> ∅)
  = setenv_range (<["A" := "1"]> (<["B" := "2"]> ∅)) (<["A" := "0"]> ∅).
Proof.
  apply (setenv_range_order (<["A" := "1"]> (<["B" := "2"]> ∅))
           (<["A" := "0"]> ∅) [("B", "2"); ("A", "1")]).
  vm_compute. first [reflexivity | apply perm_swap].
Defined.

Lemma parse_split_last_wins_witness :
  parse_split ("K=1" +:+ String newline ("X" +:+ String newline "K=2=3"))
    !! "K" = Some "2=3".
Proof.
  apply (parse_split_last_wins _ ["K=1"; "X"] "K=2=3" [] "K" "2=3");
    [reflexivity | reflexivity | constructor].
Defined.

Lemma parse_scan_skips_line_witness :
  parse_scan ("A=1" +:+ String newline ("banner" +:+ String newline "B=2"))
  = parse_lines (["A=1"] ++ ["B=2"]).
Proof.
  apply (parse_scan_skips_line _ ["A=1"] "banner" ["B=2"]); reflexivity.
Defined.
